(** * Regex-Parser: the interval-table matching engine and the pattern parser

    A shallow embedding of [pattern.c] and [parse.c].  Every node of the
    pattern tree owns a [(len+1) x (len+1)] boolean match table; [locate]
    rebuilds the tables of a whole tree for one input line and [matches]
    reads one entry.  The parser turns a pattern string into such a tree.

    Conventions.  A C string is a [list ascii]; as in C, the string ends at
    the first NUL character (or at the end of the list), so [strlen] counts
    the characters before it.  Indices are [nat]: the source uses [int], and
    every index it forms lies between [0] and [strlen str + 1]. *)

From Stdlib Require Import Ascii String.
From stdpp Require Import base relations list.

#[local] Set Warnings "-clear-no-such-hyp".

Local Open Scope char_scope.

(** ** C strings *)

Definition NUL : ascii := Ascii.zero.

Fixpoint strlen (str : list ascii) : nat :=
  match str with
  | [] => 0
  | c :: rest => if Ascii.eqb c NUL then 0 else S (strlen rest)
  end.

(** [strchr s c] as a truth value: the terminator of [s] is part of the
    string, so looking for NUL always succeeds. *)
Definition strchr (s : list ascii) (c : ascii) : bool :=
  Ascii.eqb c NUL || existsb (Ascii.eqb c) s.

(** A pattern or an input line written as a Rocq string literal. *)
Definition cstr (s : string) : list ascii := list_ascii_of_string s.

(** ** Loops *)

(** [for ( int i = lo; i <= hi; i++ ) body] *)
Fixpoint for_count {St : Type} (n i : nat) (body : nat -> St -> St) (s : St) : St :=
  match n with
  | 0 => s
  | S n' => for_count n' (S i) body (body i s)
  end.

Definition for_upto {St : Type} (lo hi : nat) (body : nat -> St -> St) (s : St) : St :=
  for_count (S hi - lo) lo body s.

(** The same loop with a body that may leave it: the body returns the new
    state and whether it executed [break]. *)
Fixpoint for_count_break {St : Type} (n i : nat) (body : nat -> St -> St * bool)
    (s : St) : St * bool :=
  match n with
  | 0 => (s, false)
  | S n' =>
      let '(s', stop) := body i s in
      if stop then (s', true) else for_count_break n' (S i) body s'
  end.

Definition for_upto_break {St : Type} (lo hi : nat) (body : nat -> St -> St * bool)
    (s : St) : St * bool :=
  for_count_break (S hi - lo) lo body s.

(** [for ( int begin = b0; str[ begin ]; begin++ ) body], where [str] is the
    part of the string from [b0] on; the body receives [begin] and
    [str[begin]]. *)
Fixpoint for_chars {St : Type} (str : list ascii) (begin : nat)
    (body : nat -> ascii -> St -> St) (s : St) : St :=
  match str with
  | [] => s
  | c :: rest =>
      if Ascii.eqb c NUL then s
      else for_chars rest (S begin) body (body begin c s)
  end.

(** ** Match tables *)

Abbreviation Table := (list (list bool)).

(** [calloc]-ed [(len+1) x (len+1)] table of [initTable]. *)
Definition newTable (len : nat) : Table :=
  replicate (S len) (replicate (S len) false).

(** [table[ b ][ e ] = true].  Every write of the source is in range (see
    the [table_set] lemmas); outside the table the model leaves it alone. *)
Definition table_set (t : Table) (b e : nat) : Table :=
  alter (fun row => <[e := true]> row) b t.

(** [table[ b ][ e ]]; [false] outside the table, where C reads are
    undefined (no read of the source is out of range after [locate]). *)
Definition table_get (t : Table) (b e : nat) : bool :=
  match t !! b with
  | Some row => default false (row !! e)
  | None => false
  end.

(** ** Pattern nodes *)

(** The [locate] function pointer stored in a node, per struct type. *)
Inductive SymbolLocate : Type :=
  | LSymbol        (* locateSymbolPattern *)
  | LPeriod        (* locateSymbolPatternPeriod *)
  | LCarrot        (* locateSymbolPatternCarrot *)
  | LAnchor.       (* locateSymbolPatternAnchor *)

Inductive BinaryLocate : Type :=
  | LConcatenation (* locateConcatenationPattern *)
  | LAlteration.   (* locateAlterationPattern *)

Inductive RepetitionLocate : Type :=
  | LOptional      (* locateOptionalPattern *)
  | LPlus          (* locatePlusPattern *)
  | LAsterisk.     (* locateAsteriskPattern *)

(** The four struct types of [pattern.c].  [table] is [None] for the NULL
    pointer a freshly made node carries; [len] is only read when [table] is
    not NULL.  The [length] field of [RepetitionPattern] is never used. *)
Inductive Pattern : Type :=
  | SymbolPattern (len : nat) (table : option Table)
      (locate : SymbolLocate) (sym : ascii)
  | BinaryPattern (len : nat) (table : option Table)
      (locate : BinaryLocate) (p1 p2 : Pattern)
  | RepetitionPattern (len : nat) (table : option Table)
      (locate : RepetitionLocate) (sym : Pattern)
  | CharacterClassPattern (len : nat) (table : option Table)
      (cclass : list ascii).

Definition pat_len (pat : Pattern) : nat :=
  match pat with
  | SymbolPattern len _ _ _ | BinaryPattern len _ _ _ _
  | RepetitionPattern len _ _ _ | CharacterClassPattern len _ _ => len
  end.

Definition pat_table (pat : Pattern) : option Table :=
  match pat with
  | SymbolPattern _ table _ _ | BinaryPattern _ table _ _ _
  | RepetitionPattern _ table _ _ | CharacterClassPattern _ table _ => table
  end.

(** [matches( pat, begin, end )]: [pat->table[ begin ][ end ]]. *)
Definition matches (pat : Pattern) (begin end_ : nat) : bool :=
  match pat_table pat with
  | Some t => table_get t begin end_
  | None => false
  end.

(** *** Constructors; [len] is left uninitialised by the source. *)

Definition makeSymbolPattern (sym : ascii) : Pattern :=
  SymbolPattern 0 None
    (if Ascii.eqb sym "^" then LCarrot
     else if Ascii.eqb sym "." then LPeriod
     else if Ascii.eqb sym "$" then LAnchor
     else LSymbol)
    sym.

Definition makeConcatenationPattern (p1 p2 : Pattern) : Pattern :=
  BinaryPattern 0 None LConcatenation p1 p2.

Definition makeAlterationPattern (p1 p2 : Pattern) : Pattern :=
  BinaryPattern 0 None LAlteration p1 p2.

Definition makeOptionalPattern (p1 : Pattern) : Pattern :=
  RepetitionPattern 0 None LOptional p1.

Definition makeAsteriskPattern (pat : Pattern) : Pattern :=
  RepetitionPattern 0 None LAsterisk pat.

Definition makePlusPattern (pat : Pattern) : Pattern :=
  RepetitionPattern 0 None LPlus pat.

Definition makeCharacterClassPattern (sym : list ascii) : Pattern :=
  CharacterClassPattern 0 None sym.

(** ** locate *)

(** [initTable]: the old table is freed, whatever it held, and a zeroed
    table for [str] is allocated. *)
Definition initTable (old : option Table) (str : list ascii) : nat * Table :=
  (strlen str, newTable (strlen str)).

(** [' ' <= c && c <= 'z'].  Whether [char] is signed or not, the bytes that
    pass both tests are those from 32 to 122. *)
Definition in_period_range (c : ascii) : bool :=
  ((nat_of_ascii " " <=? nat_of_ascii c) && (nat_of_ascii c <=? nat_of_ascii "z"))%nat.

Definition locateSymbolPattern (sym : ascii) (old : option Table)
    (str : list ascii) : nat * Table :=
  let '(len, t) := initTable old str in
  (len, for_chars str 0 (fun begin c t =>
          if Ascii.eqb c sym then table_set t begin (begin + 1) else t) t).

Definition locateSymbolPatternPeriod (sym : ascii) (old : option Table)
    (str : list ascii) : nat * Table :=
  let '(len, t) := initTable old str in
  (len, for_chars str 0 (fun begin c t =>
          if in_period_range c then table_set t begin (begin + 1) else t) t).

Definition locateSymbolPatternCarrot (sym : ascii) (old : option Table)
    (str : list ascii) : nat * Table :=
  let '(len, t) := initTable old str in
  (len, for_chars str 0 (fun begin c t =>
          if Ascii.eqb sym "^" && (begin =? 0)%nat
          then table_set t begin begin else t) t).

Definition locateSymbolPatternAnchor (sym : ascii) (old : option Table)
    (str : list ascii) : nat * Table :=
  let '(len, t) := initTable old str in
  (len, for_chars str 0 (fun begin c t =>
          if Ascii.eqb sym "$" && (begin =? strlen str - 1)%nat
          then table_set t (begin + 1) (begin + 1) else t) t).

Definition locateCharacterClassPattern (cclass : list ascii) (old : option Table)
    (str : list ascii) : nat * Table :=
  let '(len, t) := initTable old str in
  (len, for_chars str 0 (fun begin c t =>
          for_count (strlen cclass) 0 (fun i t =>
            if Ascii.eqb c (nth i cclass NUL)
            then table_set t begin (begin + 1) else t) t) t).

(** In the composite nodes [p1], [p2] and [sym] are the children after
    their own [locate] has run on [str]. *)

Definition locateConcatenationPattern (p1 p2 : Pattern) (old : option Table)
    (str : list ascii) : nat * Table :=
  let '(len, t) := initTable old str in
  (len,
   for_upto 0 len (fun begin t =>
     for_upto begin len (fun end_ t =>
       for_upto begin end_ (fun k t =>
         if matches p1 begin k && matches p2 k end_
         then table_set t begin end_ else t) t) t) t).

(** Copy of every match of [p] in the table, the inner double loop of
    [locateAlterationPattern]. *)
Definition copy_matches (p : Pattern) (len : nat) (t : Table) : Table :=
  for_upto 0 len (fun begin t =>
    for_upto begin len (fun end_ t =>
      if matches p begin end_ then table_set t begin end_ else t) t) t.

(** [begin = end = (this->len + 1); break;] leaves the inner loop, and the
    outer loop's [begin++] then fails its test: both loops stop, which the
    [true] flag of the bodies passes on. *)
Definition locateAlterationPattern (p1 p2 : Pattern) (old : option Table)
    (str : list ascii) : nat * Table :=
  let '(len, t) := initTable old str in
  (len,
   fst (for_upto_break 0 len (fun begin t =>
     for_upto_break begin len (fun end_ t =>
       if matches p1 begin end_ then (copy_matches p1 len t, true)
       else if matches p2 begin end_ then (copy_matches p2 len t, true)
       else (t, false)) t) t)).

Definition locateOptionalPattern (sym : Pattern) (old : option Table)
    (str : list ascii) : nat * Table :=
  let '(len, t) := initTable old str in
  (len,
   fst (for_upto_break 0 len (fun begin t =>
     for_upto_break begin len (fun end_ t =>
       if matches sym begin end_ then (table_set t begin end_, true)
       else (table_set t begin end_, false)) t) t)).

(** The [while] loop of [locatePlusPattern]; [i] grows by one per turn and
    the loop ends once [end + i] exceeds [len], so [fuel = len + 1] turns
    are enough. *)
Fixpoint plus_steps (sym : Pattern) (len begin end_ : nat) (fuel i steps : nat) : nat :=
  match fuel with
  | 0 => steps
  | S fuel' =>
      if ((begin + i <=? len) && (end_ + i <=? len))%nat
      then plus_steps sym len begin end_ fuel' (S i)
             (if matches sym (begin + i) (end_ + i) then i else steps)
      else steps
  end.

Definition locatePlusPattern (sym : Pattern) (old : option Table)
    (str : list ascii) : nat * Table :=
  let '(len, t) := initTable old str in
  (len,
   for_upto 0 len (fun begin t =>
     for_upto begin len (fun end_ t =>
       if matches sym begin end_
       then
         let steps := plus_steps sym len begin end_ (S len) 0 0 in
         table_set t begin (end_ + steps)
       else t) t) t).

Definition locateAsteriskPattern (sym : Pattern) (old : option Table)
    (str : list ascii) : nat * Table :=
  let '(len, t) := initTable old str in
  (len,
   for_upto 0 len (fun begin t =>
     let t := table_set t begin begin in
     for_upto begin len (fun end_ t =>
       for_upto begin end_ (fun k t =>
         if matches sym begin k || matches sym k end_
         then table_set t begin end_ else t) t) t) t).

(** [pat->locate( pat, str )]: dispatch on the stored function pointer.
    Composite nodes first allocate their table, then locate their children,
    then fill the table from the children's. *)
Fixpoint locate (pat : Pattern) (str : list ascii) : Pattern :=
  match pat with
  | SymbolPattern len table fn sym =>
      let '(len', t') :=
        match fn with
        | LSymbol => locateSymbolPattern sym table str
        | LPeriod => locateSymbolPatternPeriod sym table str
        | LCarrot => locateSymbolPatternCarrot sym table str
        | LAnchor => locateSymbolPatternAnchor sym table str
        end in
      SymbolPattern len' (Some t') fn sym
  | BinaryPattern len table fn p1 p2 =>
      let p1' := locate p1 str in
      let p2' := locate p2 str in
      let '(len', t') :=
        match fn with
        | LConcatenation => locateConcatenationPattern p1' p2' table str
        | LAlteration => locateAlterationPattern p1' p2' table str
        end in
      BinaryPattern len' (Some t') fn p1' p2'
  | RepetitionPattern len table fn sym =>
      let sym' := locate sym str in
      let '(len', t') :=
        match fn with
        | LOptional => locateOptionalPattern sym' table str
        | LPlus => locatePlusPattern sym' table str
        | LAsterisk => locateAsteriskPattern sym' table str
        end in
      RepetitionPattern len' (Some t') fn sym'
  | CharacterClassPattern len table cclass =>
      let '(len', t') := locateCharacterClassPattern cclass table str in
      CharacterClassPattern len' (Some t') cclass
  end.

(** The intervals [(b, e)], [b <= e <= len], a located node matches. *)
Definition match_list (pat : Pattern) (len : nat) : list (nat * nat) :=
  filter (fun be => matches pat be.1 be.2 = true)
    (b ← seq 0 (S len); (fun e => (b, e)) <$> seq b (S len - b)).

(** ** Parser *)

(** How a parse can end without a tree.  [InvalidPattern] is the source's
    [invalidPattern()], which prints a message and exits.  [PastTerminator]
    is a read of [str[ pos ]] with [pos] beyond the terminating NUL: what the
    C program does from there on is not determined by the pattern.
    [OutOfFuel] belongs to the model only. *)
Inductive ParseError : Type :=
  | InvalidPattern
  | PastTerminator
  | OutOfFuel.

Inductive result (A : Type) : Type :=
  | Ok (a : A)
  | Err (e : ParseError).

Arguments Ok {A} a.
Arguments Err {A} e.

(** The error monad of the parser, with stdpp's [x ← r; k] notation. *)
#[global] Instance result_bind : MBind result :=
  fun A B (k : A -> result B) (r : result A) =>
    match r with
    | Ok a => k a
    | Err e => Err e
    end.

(** [str[ pos ]]: a character of the string, its terminator, or a read
    behind the terminator. *)
Definition read (str : list ascii) (pos : nat) : result ascii :=
  if (pos <? strlen str)%nat then Ok (nth pos str NUL)
  else if (pos =? strlen str)%nat then Ok NUL
  else Err PastTerminator.

Definition is_nul (c : ascii) : bool := Ascii.eqb c NUL.

Definition ordinary (c : ascii) : bool :=
  if strchr (cstr ".^$*?+|()[{") c then false else true.

Section Levels.

(** The call [parsePattern( subs )] on the text of a group. *)
Variable parsePattern_rec : list ascii -> result Pattern.

Variable str : list ascii.

(** The loop that copies the text of a group into [subs], one character
    per turn until [str[ pos ]] is the close parenthesis; it returns the
    text and the position of that parenthesis. *)
Fixpoint scanGroup (fuel pos : nat) (subs : list ascii) : result (list ascii * nat) :=
  match fuel with
  | 0 => Err OutOfFuel
  | S fuel' =>
      c ← read str pos;
      if Ascii.eqb c ")" then Ok (subs, pos)
      else scanGroup fuel' (S pos) (subs ++ [c])
  end.

(** The same loop for a character class, with its test for the end of
    the pattern. *)
Fixpoint scanClass (fuel pos : nat) (subs : list ascii) : result (list ascii * nat) :=
  match fuel with
  | 0 => Err OutOfFuel
  | S fuel' =>
      c ← read str pos;
      if Ascii.eqb c "]" then Ok (subs, pos)
      else if is_nul c then Err InvalidPattern
      else scanClass fuel' (S pos) (subs ++ [c])
  end.

(** The body of the [while] in the source returns in each of its three
    branches, so the loop is a conditional. *)
Definition parseAtomicPattern (pos : nat) : result (Pattern * nat) :=
  c ← read str pos;
  if ordinary c then Ok (makeSymbolPattern c, S pos)
  else if negb (is_nul c) && strchr (cstr ".^$([") c then
    if Ascii.eqb c "(" then
      '(subs, close) ← scanGroup (S (S (strlen str))) (S pos) [];
      p ← parsePattern_rec subs;
      Ok (p, S close)
    else if Ascii.eqb c "[" then
      '(subs, close) ← scanClass (S (S (strlen str))) (S pos) [];
      Ok (makeCharacterClassPattern subs, S close)
    else Ok (makeSymbolPattern c, S pos)
  else Err InvalidPattern.

(** The loops of the three parse levels below run while [str[ pos ]] is not
    NUL and is, in turn, a repetition suffix, the start of another
    repetition, a bar.  Every turn moves [pos] forward, so [strlen str + 1]
    turns of fuel are never used up.  In the repetition loop the last
    [else] stands for a turn in which none of the three tests of the body
    holds; the loop test excludes it. *)
Fixpoint repetition_loop (fuel pos : nat) (p : Pattern) : result (Pattern * nat) :=
  match fuel with
  | 0 => Err OutOfFuel
  | S fuel' =>
      c ← read str pos;
      if negb (is_nul c) && (Ascii.eqb c "*" || Ascii.eqb c "+" || Ascii.eqb c "?") then
        if Ascii.eqb c "*" then repetition_loop fuel' (S pos) (makeAsteriskPattern p)
        else if Ascii.eqb c "+" then repetition_loop fuel' (S pos) (makePlusPattern p)
        else if Ascii.eqb c "?" then repetition_loop fuel' (S pos) (makeOptionalPattern p)
        else repetition_loop fuel' pos p
      else Ok (p, pos)
  end.

Definition parseRepetition (pos : nat) : result (Pattern * nat) :=
  '(p, pos) ← parseAtomicPattern pos;
  repetition_loop (S (strlen str)) pos p.

Fixpoint concatenation_loop (fuel pos : nat) (p1 : Pattern) : result (Pattern * nat) :=
  match fuel with
  | 0 => Err OutOfFuel
  | S fuel' =>
      c ← read str pos;
      if negb (is_nul c) && negb (Ascii.eqb c "|") && negb (Ascii.eqb c ")") then
        '(p2, pos) ← parseRepetition pos;
        concatenation_loop fuel' pos (makeConcatenationPattern p1 p2)
      else Ok (p1, pos)
  end.

Definition parseConcatenation (pos : nat) : result (Pattern * nat) :=
  '(p1, pos) ← parseRepetition pos;
  concatenation_loop (S (strlen str)) pos p1.

Fixpoint alternation_loop (fuel pos : nat) (p1 : Pattern) : result (Pattern * nat) :=
  match fuel with
  | 0 => Err OutOfFuel
  | S fuel' =>
      c ← read str pos;
      if negb (is_nul c) && Ascii.eqb c "|" then
        '(p2, pos) ← parseConcatenation (S pos);
        alternation_loop fuel' pos (makeAlterationPattern p1 p2)
      else Ok (p1, pos)
  end.

Definition parseAlternation (pos : nat) : result (Pattern * nat) :=
  '(p1, pos) ← parseConcatenation pos;
  alternation_loop (S (strlen str)) pos p1.

End Levels.

(** [parsePattern] with a bound on the depth of nested groups: the whole
    pattern is parsed as an alternation, and what is left unparsed makes the
    pattern invalid. *)
Fixpoint parsePattern_depth (depth : nat) (str : list ascii) : result Pattern :=
  match depth with
  | 0 => Err OutOfFuel
  | S depth' =>
      '(pat, pos) ← parseAlternation (parsePattern_depth depth') str 0;
      c ← read str pos;
      if negb (is_nul c) then Err InvalidPattern else Ok pat
  end.

(** The text of a group is shorter than the pattern it is cut from, so
    [strlen str + 1] levels are more than a pattern can use. *)
Definition parsePattern (str : list ascii) : result Pattern :=
  parsePattern_depth (S (strlen str)) str.

(** ** Reporting ([reportMatches] of [regular.c]) *)

(** What [printf] and [putchar] write, as the list of characters written. *)
Definition red : list ascii := ascii_of_nat 27 :: cstr "[31m".
Definition white : list ascii := ascii_of_nat 27 :: cstr "[0m".
Definition newline : ascii := ascii_of_nat 10.

(** How a run of [reportMatches] ends: with its output; with a read of
    [pat->table[ begin ]] at a negative [begin], outside the table; or, in
    the model only, for want of fuel. *)
Inductive Run (A : Type) : Type :=
  | Done (a : A)
  | BadIndex
  | Starved.

Arguments Done {A} a.
Arguments BadIndex {A}.
Arguments Starved {A}.

(** The first pair of loops: is any interval matched at all? *)
Definition any_match (pat : Pattern) (len : nat) : bool :=
  for_upto 0 len (fun begin any =>
    for_upto begin len (fun end_ any =>
      if matches pat begin end_ then true else any) any) false.

(** The loop over [k] that prints the characters of a match. *)
Definition put_range (str : list ascii) (begin end_ : nat) (out : list ascii)
    : list ascii :=
  for_count (end_ - begin) begin (fun k out => out ++ [nth k str NUL]) out.

(** The inner loop over [end], which runs [turns] more times.  A match
    assigns [end - 1] to the variable [begin] of the outer loop, so [begin]
    is part of the loop state; it is an [int] and can become [-1]. *)
Fixpoint report_inner (pat : Pattern) (str : list ascii) (turns : nat)
    (begin end_ : Z) (mflag : bool) (out : list ascii)
    : Run (Z * bool * list ascii) :=
  match turns with
  | 0 => Done (begin, mflag, out)
  | S turns' =>
      if (begin <? 0)%Z then BadIndex
      else if matches pat (Z.to_nat begin) (Z.to_nat end_) then
        let out := out ++ red in
        let out := put_range str (Z.to_nat begin) (Z.to_nat end_) out in
        let out := out ++ white in
        report_inner pat str turns' (end_ - 1)%Z (end_ + 1)%Z true out
      else report_inner pat str turns' begin (end_ + 1)%Z mflag out
  end.

(** The outer loop over [begin].  Its body may move [begin] back, so the
    number of its turns is not bounded by the line: the model counts them
    with [fuel]. *)
Fixpoint report_outer (pat : Pattern) (str : list ascii) (fuel : nat)
    (begin : Z) (out : list ascii) : Run (list ascii) :=
  match fuel with
  | 0 => Starved
  | S fuel' =>
      let len := Z.of_nat (strlen str) in
      if (begin <=? len)%Z then
        match report_inner pat str (Z.to_nat (len + 1 - begin)) begin begin false out with
        | Done (begin', mflag, out') =>
            let out'' :=
              if negb mflag && negb (begin' =? len)%Z
              then out' ++ [nth (Z.to_nat begin') str NUL] else out' in
            report_outer pat str fuel' (begin' + 1)%Z out''
        | BadIndex => BadIndex
        | Starved => Starved
        end
      else Done out
  end.

Definition reportMatches (fuel : nat) (pat : Pattern) (str : list ascii)
    : Run (list ascii) :=
  if any_match pat (strlen str) then
    match report_outer pat str fuel 0%Z [] with
    | Done out => Done (out ++ [newline])
    | BadIndex => BadIndex
    | Starved => Starved
    end
  else Done [].


(** ** Notions used by the statements *)

(** A table has the shape [initTable] gives it for an input of length
    [len]. *)
Definition wf_table (len : nat) (t : Table) : Prop :=
  length t = S len ∧ Forall (fun row => length row = S len) t.

(** [t'] is [t] with the entries of [R] set to [true] and nothing else
    changed. *)
Definition marks (len : nat) (t t' : Table) (R : nat -> nat -> Prop) : Prop :=
  wf_table len t' ∧
  ∀ b e, table_get t' b e = true ↔ table_get t b e = true ∨ R b e.

(** The child's match relation as an edge relation on positions. *)
Definition hop (child : Pattern) (x y : nat) : Prop :=
  matches child x y = true.

(** The order in which the two nested loops over [begin] and [end] visit
    the intervals: [(b', e')] comes before [(b, e)]. *)
Definition scanned_before (b' e' b e : nat) : Prop :=
  b' < b ∨ (b' = b ∧ e' < e).

(** [(b0, e0)] is the first interval of that scan at which [hit] holds. *)
Definition first_hit (hit : nat -> nat -> bool) (len b0 e0 : nat) : Prop :=
  b0 ≤ e0 ≤ len ∧ hit b0 e0 = true ∧
  ∀ b e, b ≤ e ≤ len → scanned_before b e b0 e0 → hit b e = false.

(** A parse step that started at [lo] ends at a position in [lo .. hi], or
    with an error of the source, never for want of fuel. *)
Definition ends_within (lo hi : nat) (r : result (Pattern * nat)) : Prop :=
  match r with
  | Ok (_, pos) => lo ≤ pos ≤ hi
  | Err e => e ≠ OutOfFuel
  end.

(** The same for the two scans: the closing character is found inside the
    string, and [subs] has grown by the characters passed. *)
Definition scan_within (str : list ascii) (pos : nat) (subs : list ascii)
    (r : result (list ascii * nat)) : Prop :=
  match r with
  | Ok (subs', close) =>
      pos ≤ close < strlen str ∧ length subs' = length subs + (close - pos)
  | Err e => e ≠ OutOfFuel
  end.

(** The nodes of a tree, the root first. *)
Fixpoint nodes (pat : Pattern) : list Pattern :=
  pat ::
  match pat with
  | BinaryPattern _ _ _ p1 p2 => nodes p1 ++ nodes p2
  | RepetitionPattern _ _ _ sym => nodes sym
  | SymbolPattern _ _ _ _ | CharacterClassPattern _ _ _ => []
  end.

(** The repetition suffixes, and the node each one wraps around [p]. *)
Definition suffix_char (c : ascii) : bool :=
  Ascii.eqb c "*" || Ascii.eqb c "+" || Ascii.eqb c "?".

Definition apply_suffix (p : Pattern) (q : ascii) : Pattern :=
  if Ascii.eqb q "*" then makeAsteriskPattern p
  else if Ascii.eqb q "+" then makePlusPattern p
  else makeOptionalPattern p.

(** The characters at which [parseConcatenation] stops. *)
Definition stop_char (c : ascii) : bool :=
  is_nul c || Ascii.eqb c "|" || Ascii.eqb c ")".

(** The tree of a word [c :: w] of ordinary symbols: concatenations nested
    to the left. *)
Definition extend_word (p : Pattern) (c : ascii) : Pattern :=
  makeConcatenationPattern p (makeSymbolPattern c).

Definition word_tree (c : ascii) (w : list ascii) : Pattern :=
  fold_left extend_word w (makeSymbolPattern c).

(** The text [|c1 w1|c2 w2 ...] of further alternatives, and the tree of
    the alternatives: alternations nested to the left. *)
Definition bars (ws : list (ascii * list ascii)) : list ascii :=
  concat (map (fun cw => "|" :: cw.1 :: cw.2) ws).

Definition extend_alternatives (p : Pattern) (cw : ascii * list ascii) : Pattern :=
  makeAlterationPattern p (word_tree cw.1 cw.2).

(** [word] stands in the line [str] from position [b] on. *)
Definition occurs_at (word str : list ascii) (b : nat) : Prop :=
  b + length word ≤ strlen str ∧
  ∀ i, i < length word → nth (b + i) str NUL = nth i word NUL.

(** * Properties *)

(** ** Tables *)

Lemma wf_newTable len : wf_table len (newTable len).
Proof.
  split.
  - apply length_replicate.
  - apply Forall_replicate, length_replicate.
Qed.

Lemma table_get_newTable len b e : table_get (newTable len) b e = false.
Proof.
  unfold table_get, newTable.
  destruct (replicate (S len) (replicate (S len) false) !! b) as [row|] eqn:Hb; [|done].
  apply lookup_replicate_1 in Hb as [-> _].
  destruct (replicate (S len) false !! e) as [x|] eqn:He; [|done].
  by apply lookup_replicate_1 in He as [-> _].
Qed.

Lemma wf_table_set len t b e : wf_table len t → wf_table len (table_set t b e).
Proof.
  intros [Hlen Hrows]. split.
  - unfold table_set. by rewrite length_alter.
  - unfold table_set. apply Forall_alter; [done|].
    intros row _ Hrow. by rewrite length_insert.
Qed.

Lemma wf_table_row len t b :
  wf_table len t → b ≤ len → ∃ row, t !! b = Some row ∧ length row = S len.
Proof.
  intros [Hlen Hrows] Hb.
  destruct (lookup_lt_is_Some_2 t b) as [row Hrow]; [lia|].
  exists row. split; [done|].
  by apply (Forall_lookup_1 _ _ _ _ Hrows Hrow).
Qed.

Lemma table_get_set len t b e b' e' :
  wf_table len t → b ≤ len → e ≤ len →
  table_get (table_set t b e) b' e' = true ↔
  table_get t b' e' = true ∨ (b' = b ∧ e' = e).
Proof.
  intros Hwf Hb He.
  destruct (wf_table_row len t b Hwf Hb) as (row & Hrow & Hlen).
  unfold table_get, table_set. rewrite list_lookup_alter.
  destruct (decide (b = b')) as [<-|Hne].
  - rewrite Hrow. simpl. rewrite list_lookup_insert.
    destruct (decide (e = e' ∧ e < length row)) as [[<- _]|Hn].
    + simpl. naive_solver.
    + assert (e ≠ e') by lia. naive_solver.
  - naive_solver.
Qed.

(** ** Loops *)

Lemma for_count_ind {St : Type} (P : nat -> St -> Prop) (body : nat -> St -> St) n :
  ∀ i s,
    P i s →
    (∀ j s', i ≤ j < i + n → P j s' → P (S j) (body j s')) →
    P (i + n) (for_count n i body s).
Proof.
  induction n as [|n IH]; intros i s Hs Hstep; simpl.
  - by rewrite Nat.add_0_r.
  - replace (i + S n) with (S i + n) by lia.
    apply IH.
    + apply Hstep; [lia|done].
    + intros j s' Hj. apply Hstep. lia.
Qed.

Lemma for_count_ext {St : Type} (body body' : nat -> St -> St) n :
  ∀ i s,
    (∀ j s', i ≤ j < i + n → body j s' = body' j s') →
    for_count n i body s = for_count n i body' s.
Proof.
  induction n as [|n IH]; intros i s Heq; simpl; [done|].
  rewrite (Heq i s) by lia. apply IH. intros j s' Hj. apply Heq. lia.
Qed.

(** The character loop visits the positions [begin .. begin + strlen str - 1]
    with the characters found there. *)
Lemma for_chars_count {St : Type} (body : nat -> ascii -> St -> St) str :
  ∀ begin s,
    for_chars str begin body s =
    for_count (strlen str) begin (fun i => body i (nth (i - begin) str NUL)) s.
Proof.
  induction str as [|c rest IH]; intros begin s; simpl; [done|].
  destruct (Ascii.eqb c NUL); simpl; [done|].
  rewrite IH, Nat.sub_diag. apply for_count_ext.
  intros j s' Hj. replace (j - begin) with (S (j - S begin)) by lia. done.
Qed.

(** *** Loops that stop at the first hit *)

Lemma for_count_break_ind {St : Type} (P : nat -> St -> Prop) (Q : St -> Prop)
    (body : nat -> St -> St * bool) n :
  ∀ i s,
    P i s →
    (∀ j s', i ≤ j < i + n → P j s' →
       if (body j s').2 then Q (body j s').1 else P (S j) (body j s').1) →
    if (for_count_break n i body s).2
    then Q (for_count_break n i body s).1
    else P (i + n) (for_count_break n i body s).1.
Proof.
  induction n as [|n IH]; intros i s Hs Hstep; simpl.
  - by rewrite Nat.add_0_r.
  - pose proof (Hstep i s) as Hi.
    destruct (body i s) as [s' stop]. simpl in Hi.
    destruct stop; simpl.
    + apply Hi; [lia|done].
    + replace (i + S n) with (S i + n) by lia.
      apply IH.
      * apply Hi; [lia|done].
      * intros j s'' Hj. apply Hstep. lia.
Qed.

Lemma for_upto_break_ind {St : Type} (P : nat -> St -> Prop) (Q : St -> Prop)
    (body : nat -> St -> St * bool) lo hi s :
  lo ≤ S hi →
  P lo s →
  (∀ j s', lo ≤ j ≤ hi → P j s' →
     if (body j s').2 then Q (body j s').1 else P (S j) (body j s').1) →
  if (for_upto_break lo hi body s).2
  then Q (for_upto_break lo hi body s).1
  else P (S hi) (for_upto_break lo hi body s).1.
Proof.
  intros Hle Hs Hstep. unfold for_upto_break.
  pose proof (for_count_break_ind P Q body (S hi - lo) lo s Hs) as H.
  replace (lo + (S hi - lo)) with (S hi) in H by lia.
  apply H. intros j s' Hj. apply Hstep. lia.
Qed.

(** The two nested loops with a [break] that leaves both.  [P b e s] holds
    before the visit of [(b, e)], [Q s] once the scan has stopped. *)
Lemma scan_break_ind {St : Type} len (P : nat -> nat -> St -> Prop) (Q : St -> Prop)
    (body : nat -> nat -> St -> St * bool) s :
  P 0 0 s →
  (∀ b e s', b ≤ e ≤ len → P b e s' →
     if (body b e s').2 then Q (body b e s').1 else P b (S e) (body b e s').1) →
  (∀ b s', b ≤ len → P b (S len) s' → P (S b) (S b) s') →
  let r := for_upto_break 0 len
             (fun begin s => for_upto_break begin len (body begin) s) s in
  if r.2 then Q r.1 else P (S len) (S len) r.1.
Proof.
  intros Hs Hstep Hrow r. subst r.
  apply (for_upto_break_ind (fun b s' => P b b s') Q); [lia|done|].
  intros b s' Hb Hbs.
  pose proof (for_upto_break_ind (P b) Q (body b) b len s') as Hin.
  destruct (for_upto_break b len (body b) s') as [s'' stop]. simpl in *.
  destruct stop.
  - apply Hin; [lia|done|]. intros e s3 He. apply Hstep. lia.
  - apply Hrow; [lia|]. apply Hin; [lia|done|].
    intros e s3 He. apply Hstep. lia.
Qed.

(** ** Marking loops *)

Lemma marks_refl len t : wf_table len t → marks len t t (fun _ _ => False).
Proof. intros Hwf. split; [done|]. naive_solver. Qed.

Lemma marks_iff len t t' (R R' : nat -> nat -> Prop) :
  marks len t t' R → (∀ b e, R b e ↔ R' b e) → marks len t t' R'.
Proof.
  intros [Hwf Hget] HR. split; [done|].
  intros b e. rewrite Hget. by rewrite HR.
Qed.

Lemma marks_set len t b e :
  wf_table len t → b ≤ len → e ≤ len →
  marks len t (table_set t b e) (fun b' e' => b' = b ∧ e' = e).
Proof.
  intros Hwf Hb He. split.
  - by apply wf_table_set.
  - intros b' e'. by apply (table_get_set len).
Qed.

Lemma marks_if len t (c : bool) b e :
  wf_table len t → (c = true → b ≤ len ∧ e ≤ len) →
  marks len t (if c then table_set t b e else t)
    (fun b' e' => c = true ∧ b' = b ∧ e' = e).
Proof.
  intros Hwf Hc. destruct c.
  - destruct Hc as [Hb He]; [done|].
    eapply marks_iff; [by apply marks_set|]. naive_solver.
  - eapply marks_iff; [by apply marks_refl|]. naive_solver.
Qed.

Lemma marks_trans len t t' t'' (R R' : nat -> nat -> Prop) :
  marks len t t' R → marks len t' t'' R' →
  marks len t t'' (fun b e => R b e ∨ R' b e).
Proof.
  intros [Hwf Hget] [Hwf' Hget']. split; [done|].
  intros b e. rewrite Hget', Hget. naive_solver.
Qed.

Lemma marks_wf len t t' R : marks len t t' R → wf_table len t'.
Proof. by intros [? _]. Qed.

Lemma for_count_marks len (R : nat -> nat -> nat -> Prop)
    (body : nat -> Table -> Table) n i t :
  wf_table len t →
  (∀ j t', i ≤ j < i + n → wf_table len t' → marks len t' (body j t') (R j)) →
  marks len t (for_count n i body t)
    (fun b e => ∃ j, i ≤ j < i + n ∧ R j b e).
Proof.
  intros Hwf Hbody.
  pose (P := fun (k : nat) (t' : Table) =>
    marks len t t' (fun b e => ∃ j, i ≤ j < k ∧ R j b e)).
  assert (P (i + n) (for_count n i body t)) as HP; [|done].
  apply for_count_ind.
  - eapply marks_iff; [by apply marks_refl|]. intros b e. split; [done|].
    intros (j & Hj & _). lia.
  - intros j t' Hj Ht'.
    eapply marks_iff.
    + eapply marks_trans; [exact Ht'|].
      apply Hbody; [done|]. by eapply marks_wf.
    + intros b e. simpl. split.
      * intros [(k & Hk & HR)|HR]; [exists k|exists j]; split; auto; lia.
      * intros (k & Hk & HR). destruct (decide (k = j)) as [->|]; [by right|].
        left. exists k. split; [lia|done].
Qed.

Lemma for_upto_marks len (R : nat -> nat -> nat -> Prop)
    (body : nat -> Table -> Table) lo hi t :
  wf_table len t →
  (∀ j t', lo ≤ j ≤ hi → wf_table len t' → marks len t' (body j t') (R j)) →
  marks len t (for_upto lo hi body t)
    (fun b e => ∃ j, lo ≤ j ≤ hi ∧ R j b e).
Proof.
  intros Hwf Hbody. unfold for_upto.
  eapply marks_iff.
  - apply (for_count_marks len R); [done|].
    intros j t' Hj. apply Hbody. lia.
  - intros b e. split; intros (j & Hj & HR); exists j; split; auto; lia.
Qed.

(** After the marking of a fresh table, the table holds exactly the marks. *)
Lemma marks_fresh len t' R b e :
  marks len (newTable len) t' R → table_get t' b e = true ↔ R b e.
Proof.
  intros [_ Hget]. rewrite Hget, table_get_newTable. naive_solver.
Qed.

Lemma for_chars_marks len str (cond : nat -> ascii -> bool) (tb te : nat -> nat) t :
  wf_table len t →
  (∀ i, i < strlen str → cond i (nth i str NUL) = true → tb i ≤ len ∧ te i ≤ len) →
  marks len t
    (for_chars str 0
       (fun begin c t => if cond begin c then table_set t (tb begin) (te begin) else t) t)
    (fun b e => ∃ i, i < strlen str ∧ cond i (nth i str NUL) = true ∧ b = tb i ∧ e = te i).
Proof.
  intros Hwf Hrange. rewrite for_chars_count.
  eapply marks_iff.
  - apply for_count_marks; [done|].
    intros j t' Hj Hwf'. apply marks_if; [done|].
    rewrite Nat.sub_0_r. apply Hrange. lia.
  - intros b e. simpl. split.
    + intros (j & Hj & Hc & -> & ->). rewrite Nat.sub_0_r in Hc.
      exists j. split; [lia|done].
    + intros (j & Hj & Hc & -> & ->). exists j.
      rewrite Nat.sub_0_r. split; [lia|done].
Qed.

(** ** Ordinary symbols, anchors and character classes *)

Lemma locateSymbolPattern_marks sym old str :
  marks (strlen str) (newTable (strlen str))
    (locateSymbolPattern sym old str).2
    (fun b e => b < strlen str ∧ e = b + 1 ∧ nth b str NUL = sym).
Proof.
  unfold locateSymbolPattern, initTable. simpl.
  eapply marks_iff.
  - apply (for_chars_marks (strlen str) str (fun _ c => Ascii.eqb c sym)
             (fun begin => begin) (fun begin => begin + 1)); [apply wf_newTable|].
    intros i Hi _. lia.
  - intros b e. simpl. split.
    + intros (i & Hi & Hc & -> & ->). by apply Ascii.eqb_eq in Hc.
    + intros (Hb & -> & Hc). exists b. by rewrite <- Ascii.eqb_eq in Hc.
Qed.

(** A node for an ordinary symbol matches the one-character intervals that
    hold the symbol. *)
Lemma symbol_matches len0 t0 sym str b e :
  matches (locate (SymbolPattern len0 t0 LSymbol sym) str) b e = true ↔
  b < strlen str ∧ e = b + 1 ∧ nth b str NUL = sym.
Proof.
  change (matches (locate (SymbolPattern len0 t0 LSymbol sym) str) b e)
    with (table_get (locateSymbolPattern sym t0 str).2 b e).
  apply (marks_fresh _ _ _ _ _ (locateSymbolPattern_marks _ _ _)).
Qed.

Lemma locateSymbolPatternAnchor_marks sym old str :
  marks (strlen str) (newTable (strlen str))
    (locateSymbolPatternAnchor sym old str).2
    (fun b e => sym = "$" ∧ 0 < strlen str ∧ b = strlen str ∧ e = strlen str).
Proof.
  unfold locateSymbolPatternAnchor, initTable. simpl.
  eapply marks_iff.
  - apply (for_chars_marks (strlen str) str
             (fun begin _ => Ascii.eqb sym "$" && (begin =? strlen str - 1)%nat)
             (fun begin => begin + 1) (fun begin => begin + 1)); [apply wf_newTable|].
    intros i Hi _. lia.
  - intros b e. simpl. split.
    + intros (i & Hi & Hc & -> & ->). apply andb_true_iff in Hc as [Hsym Hc].
      apply Ascii.eqb_eq in Hsym. apply Nat.eqb_eq in Hc. split; [done|]. lia.
    + intros (-> & Hlen & -> & ->). exists (strlen str - 1).
      rewrite Nat.eqb_refl. repeat split; lia.
Qed.

Lemma locateSymbolPatternCarrot_marks sym old str :
  marks (strlen str) (newTable (strlen str))
    (locateSymbolPatternCarrot sym old str).2
    (fun b e => sym = "^" ∧ 0 < strlen str ∧ b = 0 ∧ e = 0).
Proof.
  unfold locateSymbolPatternCarrot, initTable. simpl.
  eapply marks_iff.
  - apply (for_chars_marks (strlen str) str
             (fun begin _ => Ascii.eqb sym "^" && (begin =? 0)%nat)
             (fun begin => begin) (fun begin => begin)); [apply wf_newTable|].
    intros i Hi _. lia.
  - intros b e. simpl. split.
    + intros (i & Hi & Hc & -> & ->). apply andb_true_iff in Hc as [Hsym Hc].
      apply Ascii.eqb_eq in Hsym. apply Nat.eqb_eq in Hc. split; [done|]. lia.
    + intros (-> & Hlen & -> & ->). exists 0. repeat split; lia.
Qed.

Lemma locateCharacterClassPattern_marks cclass old str :
  marks (strlen str) (newTable (strlen str))
    (locateCharacterClassPattern cclass old str).2
    (fun b e => b < strlen str ∧ e = b + 1 ∧
       ∃ i, i < strlen cclass ∧ nth b str NUL = nth i cclass NUL).
Proof.
  unfold locateCharacterClassPattern, initTable. simpl.
  rewrite for_chars_count.
  eapply marks_iff.
  - apply for_count_marks; [apply wf_newTable|].
    intros begin t1 Hbegin Hwf1.
    apply for_count_marks; [done|].
    intros i t2 Hi Hwf2.
    apply marks_if; [done|]. lia.
  - intros b e. simpl. split.
    + intros (begin & Hbegin & i & Hi & Hc & -> & ->).
      rewrite Nat.sub_0_r in Hc. apply Ascii.eqb_eq in Hc.
      split; [lia|]. split; [done|]. exists i. split; [lia|done].
    + intros (Hb & -> & i & Hi & Hc). exists b. split; [lia|].
      exists i. split; [lia|]. rewrite Nat.sub_0_r, Hc, Ascii.eqb_refl. done.
Qed.

(** X3.  What the end anchor marks: the entry [(len, len)] of a non-empty input
    and nothing else; on the empty input the character loop has no turn and
    nothing is marked. *)
Lemma anchor_matches str b e :
  matches (locate (makeSymbolPattern "$") str) b e = true ↔
  0 < strlen str ∧ b = strlen str ∧ e = strlen str.
Proof.
  change (matches (locate (makeSymbolPattern "$") str) b e)
    with (table_get (locateSymbolPatternAnchor "$" None str).2 b e).
  rewrite (marks_fresh _ _ _ _ _ (locateSymbolPatternAnchor_marks _ _ _)).
  naive_solver.
Qed.

(** C7.  On the empty input the end anchor marks nothing: the entry
    [(len, len) = (0, 0)], which an end anchor has to match, stays false. *)
Theorem anchor_empty_input :
  strlen (cstr "") = 0 ∧
  matches (locate (makeSymbolPattern "$") (cstr "")) 0 0 = false.
Proof. split; reflexivity. Qed.

(** X1.  A node made for an ordinary symbol marks, after [locate], exactly
    the one-character intervals of the line that hold the symbol. *)
Theorem literal_table c str b e :
  c ≠ "^" → c ≠ "." → c ≠ "$" →
  matches (locate (makeSymbolPattern c) str) b e = true ↔
  b < strlen str ∧ e = b + 1 ∧ nth b str NUL = c.
Proof.
  intros H1 H2 H3.
  assert (makeSymbolPattern c = SymbolPattern 0 None LSymbol c) as ->.
  { unfold makeSymbolPattern.
    apply Ascii.eqb_neq in H1, H2, H3. by rewrite H1, H2, H3. }
  apply symbol_matches.
Qed.

Lemma literal_table_witness :
  ("b" ≠ "^" ∧ "b" ≠ "." ∧ "b" ≠ "$") ∧
  (matches (locate (makeSymbolPattern "b") (cstr "abc")) 1 2 = true ↔
   1 < strlen (cstr "abc") ∧ 2 = 1 + 1 ∧ nth 1 (cstr "abc") NUL = "b").
Proof.
  assert ("b" ≠ "^") as H1 by discriminate.
  assert ("b" ≠ ".") as H2 by discriminate.
  assert ("b" ≠ "$") as H3 by discriminate.
  split; [by repeat split|].
  exact (literal_table "b" (cstr "abc") 1 2 H1 H2 H3).
Defined.

(** X2.  The start anchor marks the empty interval at position 0 of a
    non-empty line and nothing else; on the empty line its character loop
    has no turn and it marks nothing. *)
Theorem carrot_table str b e :
  matches (locate (makeSymbolPattern "^") str) b e = true ↔
  0 < strlen str ∧ b = 0 ∧ e = 0.
Proof.
  change (matches (locate (makeSymbolPattern "^") str) b e)
    with (table_get (locateSymbolPatternCarrot "^" None str).2 b e).
  rewrite (marks_fresh _ _ _ _ _ (locateSymbolPatternCarrot_marks _ _ _)).
  naive_solver.
Qed.

(** X4.  A character class marks exactly the one-character intervals whose
    character is one of the class; the empty class marks nothing. *)
Theorem class_table cclass str b e :
  matches (locate (makeCharacterClassPattern cclass) str) b e = true ↔
  b < strlen str ∧ e = b + 1 ∧
  ∃ i, i < strlen cclass ∧ nth b str NUL = nth i cclass NUL.
Proof.
  change (matches (locate (makeCharacterClassPattern cclass) str) b e)
    with (table_get (locateCharacterClassPattern cclass None str).2 b e).
  apply (marks_fresh _ _ _ _ _ (locateCharacterClassPattern_marks _ _ _)).
Qed.

(** ** Wildcard *)

Lemma locateSymbolPatternPeriod_marks sym old str :
  marks (strlen str) (newTable (strlen str))
    (locateSymbolPatternPeriod sym old str).2
    (fun b e => b < strlen str ∧ e = b + 1 ∧ in_period_range (nth b str NUL) = true).
Proof.
  unfold locateSymbolPatternPeriod, initTable. simpl.
  eapply marks_iff.
  - apply (for_chars_marks (strlen str) str (fun _ c => in_period_range c)
             (fun begin => begin) (fun begin => begin + 1)); [apply wf_newTable|].
    intros i Hi _. lia.
  - intros b e. simpl. split.
    + by intros (i & Hi & Hc & -> & ->).
    + intros (Hb & -> & Hc). by exists b.
Qed.

(** C10.  After [locate] on a wildcard node, position [i] of the input is a
    one-character match exactly when the character there lies between the
    space and ['z']; the four printable characters after ['z'] are never
    matched. *)
Theorem period_matches_range str i :
  i < strlen str →
  (matches (locate (makeSymbolPattern ".") str) i (i + 1) = true ↔
   nat_of_ascii " " ≤ nat_of_ascii (nth i str NUL) ≤ nat_of_ascii "z") ∧
  (nth i str NUL ∈ ["{"; "|"; "}"; "~"] →
   matches (locate (makeSymbolPattern ".") str) i (i + 1) = false).
Proof.
  intros Hi.
  change (matches (locate (makeSymbolPattern ".") str) i (i + 1))
    with (table_get (locateSymbolPatternPeriod "." None str).2 i (i + 1)).
  pose proof (marks_fresh _ _ _ i (i + 1)
                (locateSymbolPatternPeriod_marks "." None str)) as Hget.
  assert (in_period_range (nth i str NUL) = true ↔
          nat_of_ascii " " ≤ nat_of_ascii (nth i str NUL) ≤ nat_of_ascii "z") as Hrange.
  { unfold in_period_range. rewrite andb_true_iff, !Nat.leb_le. done. }
  split.
  - rewrite Hget, <- Hrange. naive_solver.
  - intros Hin. apply not_true_is_false. rewrite Hget, Hrange.
    intros (_ & _ & Hlo & Hhi). revert Hhi.
    repeat (apply elem_of_cons in Hin as [->|Hin]; [vm_compute; lia|]).
    by apply elem_of_nil in Hin.
Qed.

Lemma period_matches_range_witness :
  1 < strlen (cstr "a{") ∧
  (matches (locate (makeSymbolPattern ".") (cstr "a{")) 1 (1 + 1) = true ↔
   nat_of_ascii " " ≤ nat_of_ascii (nth 1 (cstr "a{") NUL) ≤ nat_of_ascii "z") ∧
  (nth 1 (cstr "a{") NUL ∈ ["{"; "|"; "}"; "~"] →
   matches (locate (makeSymbolPattern ".") (cstr "a{")) 1 (1 + 1) = false).
Proof.
  assert (1 < strlen (cstr "a{")) as H by (vm_compute; lia).
  split; [exact H|].
  exact (period_matches_range (cstr "a{") 1 H).
Defined.

(** ** Concatenation *)

Lemma locateConcatenationPattern_marks p1 p2 old str :
  marks (strlen str) (newTable (strlen str))
    (locateConcatenationPattern p1 p2 old str).2
    (fun b e => b ≤ e ≤ strlen str ∧
       ∃ k, b ≤ k ≤ e ∧ matches p1 b k = true ∧ matches p2 k e = true).
Proof.
  unfold locateConcatenationPattern, initTable. simpl.
  eapply marks_iff.
  - apply for_upto_marks; [apply wf_newTable|].
    intros begin t1 Hbegin Hwf1.
    apply for_upto_marks; [done|].
    intros end_ t2 Hend Hwf2.
    apply for_upto_marks; [done|].
    intros k t3 Hk Hwf3.
    apply marks_if; [done|]. lia.
  - intros b e. simpl. split.
    + intros (begin & Hbegin & end_ & Hend & k & Hk & Hc & -> & ->).
      apply andb_true_iff in Hc as [H1 H2].
      split; [lia|]. exists k. split; [lia|done].
    + intros (Hbe & k & Hk & H1 & H2).
      exists b. split; [lia|]. exists e. split; [lia|].
      exists k. split; [lia|]. rewrite H1, H2. done.
Qed.

(** C8.  After [locate] on a concatenation node, an interval [b <= e <= len]
    is marked exactly when some split point [k] between [b] and [e] has the
    left child matching [(b, k)] and the right child matching [(k, e)]. *)
Theorem concatenation_split len0 t0 L R str b e :
  b ≤ e ≤ strlen str →
  matches (locate (BinaryPattern len0 t0 LConcatenation L R) str) b e = true ↔
  ∃ k, b ≤ k ≤ e ∧
       matches (locate L str) b k = true ∧ matches (locate R str) k e = true.
Proof.
  intros Hbe.
  change (matches (locate (BinaryPattern len0 t0 LConcatenation L R) str) b e)
    with (table_get
            (locateConcatenationPattern (locate L str) (locate R str) t0 str).2 b e).
  rewrite (marks_fresh _ _ _ _ _ (locateConcatenationPattern_marks _ _ _ _)).
  split.
  - by intros [_ Hk].
  - intros Hk. by split.
Qed.

Lemma concatenation_split_witness :
  1 ≤ 3 ≤ strlen (cstr "aab") ∧
  (matches (locate (makeConcatenationPattern (makeSymbolPattern "a") (makeSymbolPattern "b"))
             (cstr "aab")) 1 3 = true ↔
  ∃ k, 1 ≤ k ≤ 3 ∧
       matches (locate (makeSymbolPattern "a") (cstr "aab")) 1 k = true ∧
       matches (locate (makeSymbolPattern "b") (cstr "aab")) k 3 = true).
Proof.
  assert (1 ≤ 3 ≤ strlen (cstr "aab")) as H by (vm_compute; lia).
  split; [exact H|].
  exact (concatenation_split 0 None (makeSymbolPattern "a") (makeSymbolPattern "b")
           (cstr "aab") 1 3 H).
Defined.

Lemma concatenation_matches len0 t0 L R str b e :
  matches (locate (BinaryPattern len0 t0 LConcatenation L R) str) b e = true ↔
  b ≤ e ≤ strlen str ∧
  ∃ k, b ≤ k ≤ e ∧
       matches (locate L str) b k = true ∧ matches (locate R str) k e = true.
Proof.
  change (matches (locate (BinaryPattern len0 t0 LConcatenation L R) str) b e)
    with (table_get
            (locateConcatenationPattern (locate L str) (locate R str) t0 str).2 b e).
  apply (marks_fresh _ _ _ _ _ (locateConcatenationPattern_marks _ _ _ _)).
Qed.

(** X11.  Concatenation is associative on tables: grouping three patterns
    to the left or to the right gives the same entries on every line. *)
Theorem concatenation_assoc A B C str b e :
  matches (locate (makeConcatenationPattern (makeConcatenationPattern A B) C) str) b e =
  matches (locate (makeConcatenationPattern A (makeConcatenationPattern B C)) str) b e.
Proof.
  apply Bool.eq_iff_eq_true. unfold makeConcatenationPattern.
  rewrite !concatenation_matches. split.
  - intros (Hbe & k & Hk & HAB & HC).
    apply concatenation_matches in HAB as (Hbk & j & Hj & HA & HB).
    split; [done|]. exists j. split; [lia|]. split; [done|].
    apply concatenation_matches. split; [lia|].
    exists k. split; [lia|done].
  - intros (Hbe & j & Hj & HA & HBC).
    apply concatenation_matches in HBC as (Hje & k & Hk & HB & HC).
    split; [done|]. exists k. split; [lia|]. split; [|done].
    apply concatenation_matches. split; [lia|].
    exists j. split; [lia|done].
Qed.

(** ** Alternation *)

Lemma first_hit_unique hit len b0 e0 b1 e1 :
  first_hit hit len b0 e0 → first_hit hit len b1 e1 → b0 = b1 ∧ e0 = e1.
Proof.
  intros (Hr0 & Hh0 & Hf0) (Hr1 & Hh1 & Hf1).
  destruct (decide (scanned_before b0 e0 b1 e1)) as [H|H0].
  { rewrite (Hf1 b0 e0) in Hh0; done. }
  destruct (decide (scanned_before b1 e1 b0 e0)) as [H|H1].
  { rewrite (Hf0 b1 e1) in Hh1; done. }
  unfold scanned_before in *. lia.
Qed.

Lemma copy_matches_marks p len t :
  wf_table len t →
  marks len t (copy_matches p len t)
    (fun b e => b ≤ e ≤ len ∧ matches p b e = true).
Proof.
  intros Hwf. unfold copy_matches.
  eapply marks_iff.
  - apply for_upto_marks; [done|].
    intros begin t1 Hbegin Hwf1.
    apply for_upto_marks; [done|].
    intros end_ t2 Hend Hwf2.
    apply marks_if; [done|]. lia.
  - intros b e. cbv beta. split.
    + intros (begin & Hbegin & end_ & Hend & Hm & -> & ->). split; [lia|done].
    + intros (Hbe & Hm). exists b. split; [lia|]. exists e. split; [lia|done].
Qed.

(** What the alternation node holds: nothing when no child matches any
    interval; otherwise the matches of one child only, the child that
    matches the first interval of the scan some child matches, with the
    left child preferred at that interval. *)
Lemma locateAlterationPattern_spec p1 p2 old str :
  let len := strlen str in
  let hit := fun b e => matches p1 b e || matches p2 b e in
  let t := (locateAlterationPattern p1 p2 old str).2 in
  (t = newTable len ∧ ∀ b e, b ≤ e ≤ len → hit b e = false) ∨
  (∃ b0 e0, first_hit hit len b0 e0 ∧
     t = copy_matches (if matches p1 b0 e0 then p1 else p2) len (newTable len)).
Proof.
  intros len hit t. subst t.
  unfold locateAlterationPattern, initTable. cbv beta iota zeta delta [snd].
  fold len.
  pose (P := fun (b e : nat) (t : Table) =>
    t = newTable len ∧
    ∀ b' e', b' ≤ e' ≤ len → scanned_before b' e' b e → hit b' e' = false).
  pose (Q := fun (t : Table) =>
    ∃ b0 e0, first_hit hit len b0 e0 ∧
      t = copy_matches (if matches p1 b0 e0 then p1 else p2) len (newTable len)).
  pose (body := fun (begin end_ : nat) (t : Table) =>
    if matches p1 begin end_ then (copy_matches p1 len t, true)
    else if matches p2 begin end_ then (copy_matches p2 len t, true)
    else (t, false)).
  assert (P 0 0 (newTable len)) as Hstart.
  { split; [done|]. intros b' e' _ Hbefore. unfold scanned_before in Hbefore. lia. }
  assert (∀ b e t', b ≤ e ≤ len → P b e t' →
            if (body b e t').2 then Q (body b e t').1 else P b (S e) (body b e t').1)
    as Hstep.
  { intros b e t' Hbe [-> Hnone]. unfold body.
    destruct (matches p1 b e) eqn:H1; simpl.
    - exists b, e. rewrite H1. split; [|done].
      split; [done|]. split; [|done]. unfold hit. by rewrite H1.
    - destruct (matches p2 b e) eqn:H2; simpl.
      + exists b, e. rewrite H1. split; [|done].
        split; [done|]. split; [|done]. unfold hit. by rewrite H1, H2.
      + split; [done|]. intros b' e' Hbe' Hbefore.
        destruct (decide (b' = b ∧ e' = e)) as [[-> ->]|Hne].
        * unfold hit. by rewrite H1, H2.
        * apply Hnone; [done|]. unfold scanned_before in *. lia. }
  assert (∀ b t', b ≤ len → P b (S len) t' → P (S b) (S b) t') as Hrow.
  { intros b t' Hb [-> Hnone]. split; [done|].
    intros b' e' Hbe' Hbefore. apply Hnone; [done|].
    unfold scanned_before in *. lia. }
  pose proof (scan_break_ind len P Q body (newTable len) Hstart Hstep Hrow) as Hscan.
  cbv zeta in Hscan. unfold body in Hscan.
  match type of Hscan with if (?r).2 then _ else _ =>
    change (fst r = newTable len ∧ (∀ b e, b ≤ e ≤ len → hit b e = false) ∨ Q (fst r));
    destruct r as [t stop] end.
  simpl in *. destruct stop; [by right|].
  left. destruct Hscan as [-> Hnone]. split; [done|].
  intros b e Hbe. apply Hnone; [done|]. unfold scanned_before. lia.
Qed.

Lemma locateAlterationPattern_marks p1 p2 old str :
  marks (strlen str) (newTable (strlen str))
    (locateAlterationPattern p1 p2 old str).2
    (fun b e => b ≤ e ≤ strlen str ∧
       ∃ b0 e0,
         first_hit (fun x y => matches p1 x y || matches p2 x y) (strlen str) b0 e0 ∧
         matches (if matches p1 b0 e0 then p1 else p2) b e = true).
Proof.
  destruct (locateAlterationPattern_spec p1 p2 old str)
    as [[-> Hnone]|(b0 & e0 & Hfirst & ->)].
  - eapply marks_iff; [apply marks_refl, wf_newTable|].
    intros b e. split; [done|].
    intros (_ & b0 & e0 & (Hbe & Hhit & _) & _).
    by rewrite Hnone in Hhit.
  - eapply marks_iff; [apply copy_matches_marks, wf_newTable|].
    intros b e. cbv beta. split.
    + intros [Hbe Hm]. split; [done|]. by exists b0, e0.
    + intros (Hbe & b1 & e1 & Hfirst' & Hm). split; [done|].
      by destruct (first_hit_unique _ _ _ _ _ _ Hfirst Hfirst') as [-> ->].
Qed.

(** X5.  The alternation node holds the matches of one child only: of the
    child that matches the first interval, in the order of the scan, that
    either child matches, the left child where both match it; it holds
    nothing when no interval is matched by a child. *)
Lemma alteration_matches len0 t0 L R str b e :
  let L' := locate L str in
  let R' := locate R str in
  matches (locate (BinaryPattern len0 t0 LAlteration L R) str) b e = true ↔
  b ≤ e ≤ strlen str ∧
  ∃ b0 e0,
    first_hit (fun x y => matches L' x y || matches R' x y) (strlen str) b0 e0 ∧
    matches (if matches L' b0 e0 then L' else R') b e = true.
Proof.
  intros L' R'.
  change (matches (locate (BinaryPattern len0 t0 LAlteration L R) str) b e)
    with (table_get (locateAlterationPattern L' R' t0 str).2 b e).
  apply (marks_fresh _ _ _ _ _ (locateAlterationPattern_marks _ _ _ _)).
Qed.

(** Whatever the alternation node marks, one of its children matches. *)
Lemma alteration_sound len0 t0 L R str b e :
  matches (locate (BinaryPattern len0 t0 LAlteration L R) str) b e = true →
  matches (locate L str) b e || matches (locate R str) b e = true.
Proof.
  change (matches (locate (BinaryPattern len0 t0 LAlteration L R) str) b e)
    with (table_get (locateAlterationPattern (locate L str) (locate R str) t0 str).2 b e).
  rewrite (marks_fresh _ _ _ _ _ (locateAlterationPattern_marks _ _ _ _)).
  intros (_ & b0 & e0 & _ & Hm).
  destruct (matches (locate L str) b0 e0); rewrite Hm; [done|].
  apply orb_true_r.
Qed.

(** C1.  For [a|b] on the input [ab] the right child matches [(1, 2)] but
    the alternation does not: once the left child is found to match
    [(0, 1)], only the left child's table is copied. *)
Theorem alteration_not_union :
  let L := makeSymbolPattern "a" in
  let R := makeSymbolPattern "b" in
  let str := cstr "ab" in
  matches (locate R str) 1 2 = true ∧
  matches (locate (makeAlterationPattern L R) str) 1 2 = false.
Proof. split; reflexivity. Qed.

(** ** Optional *)

(** What the optional node marks: every interval of the scan up to, and
    with, the first interval the child matches; all intervals when the
    child matches none. *)
Lemma locateOptionalPattern_marks sym old str :
  marks (strlen str) (newTable (strlen str))
    (locateOptionalPattern sym old str).2
    (fun b e => b ≤ e ≤ strlen str ∧
       ∀ b' e', b' ≤ e' ≤ strlen str → scanned_before b' e' b e →
                matches sym b' e' = false).
Proof.
  unfold locateOptionalPattern, initTable. cbv beta iota zeta delta [snd].
  set (len := strlen str).
  pose (P := fun (b e : nat) (t : Table) =>
    wf_table len t ∧
    (∀ b' e', b' ≤ e' ≤ len → scanned_before b' e' b e → matches sym b' e' = false) ∧
    ∀ x y, table_get t x y = true ↔ x ≤ y ≤ len ∧ scanned_before x y b e).
  pose (Q := fun (t : Table) =>
    wf_table len t ∧
    ∃ b0 e0, first_hit (matches sym) len b0 e0 ∧
      ∀ x y, table_get t x y = true ↔
             x ≤ y ≤ len ∧ (scanned_before x y b0 e0 ∨ (x = b0 ∧ y = e0))).
  pose (body := fun (begin end_ : nat) (t : Table) =>
    if matches sym begin end_ then (table_set t begin end_, true)
    else (table_set t begin end_, false)).
  assert (P 0 0 (newTable len)) as Hstart.
  { split; [apply wf_newTable|]. split.
    - intros b' e' _ Hbefore. unfold scanned_before in Hbefore. lia.
    - intros x y. rewrite table_get_newTable. unfold scanned_before.
      split; [done|lia]. }
  assert (∀ b e t', b ≤ e ≤ len → P b e t' →
            if (body b e t').2 then Q (body b e t').1 else P b (S e) (body b e t').1)
    as Hstep.
  { intros b1 e1 t' Hbe (Hwf & Hnone & Hget). unfold body.
    destruct (matches sym b1 e1) eqn:Hm; simpl.
    - split; [by apply wf_table_set|].
      exists b1, e1. split; [done|].
      intros x y. rewrite (table_get_set len) by (done || lia).
      rewrite Hget. unfold scanned_before. lia.
    - split; [by apply wf_table_set|]. split.
      + intros b' e' Hbe' Hbefore.
        destruct (decide (b' = b1 ∧ e' = e1)) as [[-> ->]|Hne]; [done|].
        apply Hnone; [done|]. unfold scanned_before in *. lia.
      + intros x y. rewrite (table_get_set len) by (done || lia).
        rewrite Hget. unfold scanned_before. lia. }
  assert (∀ b t', b ≤ len → P b (S len) t' → P (S b) (S b) t') as Hrow.
  { intros b1 t' Hb (Hwf & Hnone & Hget). split; [done|]. split.
    - intros b' e' Hbe' Hbefore. apply Hnone; [done|].
      unfold scanned_before in *. lia.
    - intros x y. rewrite Hget. unfold scanned_before. lia. }
  pose proof (scan_break_ind len P Q body (newTable len) Hstart Hstep Hrow) as Hscan.
  cbv zeta in Hscan. unfold body in Hscan.
  match type of Hscan with if (?r).2 then _ else _ =>
    change (marks len (newTable len) (fst r)
              (fun b e => b ≤ e ≤ len ∧
                 ∀ b' e', b' ≤ e' ≤ len → scanned_before b' e' b e →
                          matches sym b' e' = false));
    destruct r as [t stop] end.
  simpl in *. destruct stop.
  - destruct Hscan as (Hwf & b0 & e0 & (Hbe0 & Hm0 & Hfirst) & Hget).
    split; [done|]. intros b e.
    rewrite Hget, table_get_newTable. split.
    + intros [Hbe Hpos]. right. split; [done|].
      intros b' e' Hbe' Hbefore. apply Hfirst; [done|].
      unfold scanned_before in *. lia.
    + intros [?|[Hbe Hnone]]; [done|]. split; [done|].
      destruct (decide (scanned_before b0 e0 b e)) as [Hbefore|Hnot].
      * rewrite Hnone in Hm0; done.
      * unfold scanned_before in *. lia.
  - destruct Hscan as (Hwf & Hnone & Hget).
    split; [done|]. intros b e.
    rewrite Hget, table_get_newTable. split.
    + intros [Hbe _]. right. split; [done|].
      intros b' e' Hbe' _. apply Hnone; [done|]. unfold scanned_before. lia.
    + intros [?|[Hbe _]]; [done|]. split; [done|]. unfold scanned_before. lia.
Qed.

(** X7.  The optional node marks an interval exactly when the child matches
    no interval that the scan visits before it: every interval up to, and
    with, the child's first match. *)
Lemma optional_matches len0 t0 C str b e :
  matches (locate (RepetitionPattern len0 t0 LOptional C) str) b e = true ↔
  b ≤ e ≤ strlen str ∧
  ∀ b' e', b' ≤ e' ≤ strlen str → scanned_before b' e' b e →
           matches (locate C str) b' e' = false.
Proof.
  change (matches (locate (RepetitionPattern len0 t0 LOptional C) str) b e)
    with (table_get (locateOptionalPattern (locate C str) t0 str).2 b e).
  apply (marks_fresh _ _ _ _ _ (locateOptionalPattern_marks _ _ _)).
Qed.

(** C4.  For [a?] on the input [b] the entry [(0, 1)] is marked although the
    child does not match it and the interval is not empty; on the input
    [ab] the empty interval [(1, 1)] is not marked. *)
Theorem optional_not_child_or_empty :
  let C := makeSymbolPattern "a" in
  (matches (locate C (cstr "b")) 0 1 = false ∧
   matches (locate (makeOptionalPattern C) (cstr "b")) 0 1 = true) ∧
  matches (locate (makeOptionalPattern C) (cstr "ab")) 1 1 = false.
Proof. repeat split; reflexivity. Qed.

(** ** Star *)

(** What the star node marks: the empty intervals, and every interval of
    which a prefix or a suffix (the whole interval included) is matched by
    the child. *)
Lemma locateAsteriskPattern_marks sym old str :
  marks (strlen str) (newTable (strlen str))
    (locateAsteriskPattern sym old str).2
    (fun b e => b ≤ e ≤ strlen str ∧
       (b = e ∨ ∃ k, b ≤ k ≤ e ∧ (matches sym b k = true ∨ matches sym k e = true))).
Proof.
  unfold locateAsteriskPattern, initTable. simpl.
  eapply marks_iff.
  - apply for_upto_marks; [apply wf_newTable|].
    intros begin t1 Hbegin Hwf1.
    eapply (marks_trans _ _ (table_set t1 begin begin));
      [apply marks_set; [done|lia|lia]|].
    apply for_upto_marks; [by apply wf_table_set|].
    intros end_ t2 Hend Hwf2.
    apply for_upto_marks; [done|].
    intros k t3 Hk Hwf3.
    apply marks_if; [done|]. lia.
  - intros b e. simpl. split.
    + intros (begin & Hbegin & [[-> ->]|(end_ & Hend & k & Hk & Hc & -> & ->)]).
      * split; [lia|]. by left.
      * apply orb_true_iff in Hc. split; [lia|]. right. exists k. split; [lia|done].
    + intros (Hbe & [<-|(k & Hk & Hc)]).
      * exists b. split; [lia|]. by left.
      * exists b. split; [lia|]. right. exists e. split; [lia|].
        exists k. split; [lia|]. apply orb_true_iff in Hc. done.
Qed.

(** X8.  The star node marks the empty intervals and every interval of
    which the child matches a prefix or a suffix. *)
Lemma asterisk_matches len0 t0 C str b e :
  matches (locate (RepetitionPattern len0 t0 LAsterisk C) str) b e = true ↔
  b ≤ e ≤ strlen str ∧
  (b = e ∨ ∃ k, b ≤ k ≤ e ∧
     (matches (locate C str) b k = true ∨ matches (locate C str) k e = true)).
Proof.
  change (matches (locate (RepetitionPattern len0 t0 LAsterisk C) str) b e)
    with (table_get (locateAsteriskPattern (locate C str) t0 str).2 b e).
  apply (marks_fresh _ _ _ _ _ (locateAsteriskPattern_marks _ _ _)).
Qed.

(** The star node matches the empty string at every position. *)
Lemma asterisk_matches_empty len0 t0 C str b :
  b ≤ strlen str →
  matches (locate (RepetitionPattern len0 t0 LAsterisk C) str) b b = true.
Proof.
  intros Hb.
  change (matches (locate (RepetitionPattern len0 t0 LAsterisk C) str) b b)
    with (table_get (locateAsteriskPattern (locate C str) t0 str).2 b b).
  apply (marks_fresh _ _ _ _ _ (locateAsteriskPattern_marks _ _ _)).
  split; [lia|]. by left.
Qed.

(** C2.  For [a*] on the input [ab] the entry [(0, 2)] is marked, although
    position 2 cannot be reached from position 0 by hops of the child: the
    only hop is [(0, 1)]. *)
Theorem asterisk_not_closure :
  let C := makeSymbolPattern "a" in
  let str := cstr "ab" in
  matches (locate (makeAsteriskPattern C) str) 0 2 = true ∧
  ¬ rtc (hop (locate C str)) 0 2.
Proof.
  split; [reflexivity|].
  assert (∀ x y, hop (locate (makeSymbolPattern "a") (cstr "ab")) x y → x = 0 ∧ y = 1)
    as Hhop.
  { intros x y Hxy. apply symbol_matches in Hxy as (Hx & -> & Hc).
    destruct x as [|[|x]]; [done|discriminate|]. vm_compute in Hx. lia. }
  intros H.
  apply rtc_inv in H as [?|(y & Hy & H)]; [done|].
  apply Hhop in Hy as [_ ->].
  apply rtc_inv in H as [?|(z & Hz & _)]; [done|].
  by apply Hhop in Hz as [? _].
Qed.

(** ** Plus *)

(** The [while] loop of the plus node returns the last shift [r] at which
    the child matches the shifted interval, or the initial [steps] when no
    shift from [i] on does. *)
Lemma plus_steps_spec sym len begin end_ fuel :
  ∀ i steps,
    begin ≤ end_ →
    len + 1 ≤ fuel + end_ + i →
    let r := plus_steps sym len begin end_ fuel i steps in
    (r = steps ∧
     ∀ j, i ≤ j → end_ + j ≤ len → matches sym (begin + j) (end_ + j) = false) ∨
    (i ≤ r ∧ end_ + r ≤ len ∧ matches sym (begin + r) (end_ + r) = true ∧
     ∀ j, r < j → end_ + j ≤ len → matches sym (begin + j) (end_ + j) = false).
Proof.
  induction fuel as [|fuel IH]; intros i steps Hbe Hfuel; simpl.
  - left. split; [done|]. intros j Hj Hlen. lia.
  - destruct ((begin + i <=? len)%nat && (end_ + i <=? len)%nat) eqn:Hcond.
    + apply andb_true_iff in Hcond as [_ Hle]. apply Nat.leb_le in Hle.
      destruct (IH (S i)
                  (if matches sym (begin + i) (end_ + i) then i else steps))
        as [[Hr Hnone]|(Hir & Hlen & Hm & Hlast)]; [done|lia| |].
      * destruct (matches sym (begin + i) (end_ + i)) eqn:Hm.
        -- right. rewrite Hr. repeat split; [lia|done|done|].
           intros j Hj. apply Hnone. lia.
        -- left. split; [done|]. intros j Hj Hlen.
           destruct (decide (j = i)) as [->|]; [done|]. apply Hnone; lia.
      * right. repeat split; [lia|done|done|done].
    + left. split; [done|]. intros j Hj Hlen.
      apply andb_false_iff in Hcond as [Hc|Hc]; apply Nat.leb_gt in Hc; lia.
Qed.

Lemma plus_steps_last sym len begin end_ :
  begin ≤ end_ ≤ len →
  matches sym begin end_ = true →
  let r := plus_steps sym len begin end_ (S len) 0 0 in
  end_ + r ≤ len ∧ matches sym (begin + r) (end_ + r) = true ∧
  ∀ j, r < j → end_ + j ≤ len → matches sym (begin + j) (end_ + j) = false.
Proof.
  intros Hbe Hm.
  destruct (plus_steps_spec sym len begin end_ (S len) 0 0)
    as [[_ Hnone]|(_ & Hlen & Hr & Hlast)]; [lia|lia| |done].
  specialize (Hnone 0). rewrite !Nat.add_0_r in Hnone.
  rewrite Hnone in Hm; [done|lia|lia].
Qed.

(** What the plus node marks: for each interval [(b, e)] the child matches,
    the one interval [(b, e + r)] with [r] the last shift at which the
    child matches [(b + r, e + r)]. *)
Lemma locatePlusPattern_marks sym old str :
  marks (strlen str) (newTable (strlen str))
    (locatePlusPattern sym old str).2
    (fun b e' => ∃ e r,
       b ≤ e ∧ e + r ≤ strlen str ∧ e' = e + r ∧
       matches sym b e = true ∧ matches sym (b + r) (e + r) = true ∧
       ∀ j, r < j → e + j ≤ strlen str → matches sym (b + j) (e + j) = false).
Proof.
  unfold locatePlusPattern, initTable.
  cbv beta iota zeta delta [snd].
  eapply marks_iff.
  - apply for_upto_marks; [apply wf_newTable|].
    intros begin t1 Hbegin Hwf1.
    apply for_upto_marks; [done|].
    intros end_ t2 Hend Hwf2.
    apply marks_if; [done|].
    intros Hm. pose proof (plus_steps_last sym (strlen str) begin end_) as H.
    cbv zeta in H. destruct H as (Hlen & _); [lia|done|]. lia.
  - intros b e'. cbv beta. split.
    + intros (begin & Hbegin & end_ & Hend & Hm & -> & ->).
      pose proof (plus_steps_last sym (strlen str) begin end_) as H.
      cbv zeta in H. destruct H as (Hlen & Hr & Hlast); [lia|done|].
      eexists end_, _. repeat split; [lia|exact Hlen|done|exact Hr|exact Hlast].
    + intros (e & r & Hbe & Hlen & -> & Hm & Hr & Hlast).
      exists b. split; [lia|]. exists e. split; [lia|].
      split; [done|]. split; [done|]. f_equal.
      pose proof (plus_steps_last sym (strlen str) b e) as H.
      cbv zeta in H. destruct H as (Hlen' & Hr' & Hlast'); [lia|done|].
      set (r' := plus_steps sym (strlen str) b e (S (strlen str)) 0 0) in *.
      destruct (decide (r < r')) as [Hlt|Hge].
      { rewrite Hlast in Hr' by lia. done. }
      destruct (decide (r' < r)) as [Hlt|Hge'].
      { rewrite Hlast' in Hr by lia. done. }
      lia.
Qed.

(** X10.  For each interval [(b, e)] its child matches, the plus node marks
    the single interval [(b, e + r)], with [r] the last shift at which the
    child matches [(b + r, e + r)]; it marks nothing else. *)
Lemma plus_matches len0 t0 C str b e' :
  matches (locate (RepetitionPattern len0 t0 LPlus C) str) b e' = true ↔
  ∃ e r,
    b ≤ e ∧ e + r ≤ strlen str ∧ e' = e + r ∧
    matches (locate C str) b e = true ∧
    matches (locate C str) (b + r) (e + r) = true ∧
    ∀ j, r < j → e + j ≤ strlen str → matches (locate C str) (b + j) (e + j) = false.
Proof.
  change (matches (locate (RepetitionPattern len0 t0 LPlus C) str) b e')
    with (table_get (locatePlusPattern (locate C str) t0 str).2 b e').
  apply (marks_fresh _ _ _ _ _ (locatePlusPattern_marks _ _ _)).
Qed.

(** C3.  For [a+] on the input [aa] the child matches [(0, 1)], one hop, but
    the entry [(0, 1)] of the Plus node is not marked; and on the input
    [aba] the entry [(0, 3)] is marked although no chain of hops leads from
    0 to 3. *)
Theorem plus_not_closure :
  let C := makeSymbolPattern "a" in
  (matches (locate C (cstr "aa")) 0 1 = true ∧
   matches (locate (makePlusPattern C) (cstr "aa")) 0 1 = false) ∧
  (matches (locate (makePlusPattern C) (cstr "aba")) 0 3 = true ∧
   ¬ tc (hop (locate C (cstr "aba"))) 0 3).
Proof.
  split; [split; reflexivity|].
  split; [reflexivity|].
  assert (∀ x y, hop (locate (makeSymbolPattern "a") (cstr "aba")) x y →
                 (x = 0 ∧ y = 1) ∨ (x = 2 ∧ y = 3)) as Hhop.
  { intros x y Hxy. apply symbol_matches in Hxy as (Hx & -> & Hc).
    destruct x as [|[|[|x]]]; [by left|discriminate|by right|].
    vm_compute in Hx. lia. }
  intros H. inversion H as [? ? H01|? y ? H0y Hy3]; subst.
  - apply Hhop in H01. lia.
  - apply Hhop in H0y as [[_ ->]|[? _]]; [|done].
    inversion Hy3 as [? ? H13|? z ? H1z _]; subst.
    + apply Hhop in H13. lia.
    + apply Hhop in H1z. lia.
Qed.

(** ** The table of a located node *)

(** The children of a located node are the located children. *)
Lemma locate_binary len0 t0 fn p1 p2 str :
  ∃ t, locate (BinaryPattern len0 t0 fn p1 p2) str =
       BinaryPattern (strlen str) (Some t) fn (locate p1 str) (locate p2 str).
Proof. destruct fn; eexists; reflexivity. Qed.

Lemma locate_repetition len0 t0 fn sym str :
  ∃ t, locate (RepetitionPattern len0 t0 fn sym) str =
       RepetitionPattern (strlen str) (Some t) fn (locate sym str).
Proof. destruct fn; eexists; reflexivity. Qed.

(** After [locate] a node carries a table of [(len + 1) x (len + 1)]
    entries for the input of length [len], and only intervals
    [b <= e <= len] are marked in it.  All reads and writes of the fill
    loops stay inside such tables. *)
Lemma locate_table pat str :
  ∃ t, pat_table (locate pat str) = Some t ∧
       pat_len (locate pat str) = strlen str ∧
       wf_table (strlen str) t ∧
       ∀ b e, table_get t b e = true → b ≤ e ≤ strlen str.
Proof.
  assert (∀ t R, marks (strlen str) (newTable (strlen str)) t R →
                 (∀ b e, R b e → b ≤ e ≤ strlen str) →
                 wf_table (strlen str) t ∧
                 ∀ b e, table_get t b e = true → b ≤ e ≤ strlen str) as Hmarks.
  { intros t R HR Hrange. split; [by eapply marks_wf|].
    intros b e Hget. apply Hrange. by apply (marks_fresh _ _ _ _ _ HR). }
  assert (∀ pat' t,
            pat_table pat' = Some t → pat_len pat' = strlen str →
            (∃ R, marks (strlen str) (newTable (strlen str)) t R ∧
                  ∀ b e, R b e → b ≤ e ≤ strlen str) →
            ∃ t, pat_table pat' = Some t ∧ pat_len pat' = strlen str ∧
                 wf_table (strlen str) t ∧
                 ∀ b e, table_get t b e = true → b ≤ e ≤ strlen str) as Hnode.
  { intros pat' t Ht Hlen (R & HR & Hrange). exists t.
    split; [done|]. split; [done|]. by eapply Hmarks. }
  destruct pat as [len t fn sym | len t fn p1 p2 | len t fn sym | len t cclass];
    [destruct fn .. |].
  - apply (Hnode _ (locateSymbolPattern sym t str).2); [done..|].
    eexists. split; [apply locateSymbolPattern_marks|]. cbv beta. lia.
  - apply (Hnode _ (locateSymbolPatternPeriod sym t str).2); [done..|].
    eexists. split; [apply locateSymbolPatternPeriod_marks|]. cbv beta. lia.
  - apply (Hnode _ (locateSymbolPatternCarrot sym t str).2); [done..|].
    eexists. split; [apply locateSymbolPatternCarrot_marks|]. cbv beta. lia.
  - apply (Hnode _ (locateSymbolPatternAnchor sym t str).2); [done..|].
    eexists. split; [apply locateSymbolPatternAnchor_marks|]. cbv beta. lia.
  - apply (Hnode _ (locateConcatenationPattern (locate p1 str) (locate p2 str) t str).2);
      [done..|].
    eexists. split; [apply locateConcatenationPattern_marks|]. cbv beta. lia.
  - apply (Hnode _ (locateAlterationPattern (locate p1 str) (locate p2 str) t str).2);
      [done..|].
    eexists. split; [apply locateAlterationPattern_marks|]. cbv beta. lia.
  - apply (Hnode _ (locateOptionalPattern (locate sym str) t str).2); [done..|].
    eexists. split; [apply locateOptionalPattern_marks|]. cbv beta. lia.
  - apply (Hnode _ (locatePlusPattern (locate sym str) t str).2); [done..|].
    eexists. split; [apply locatePlusPattern_marks|]. cbv beta.
    intros b e (e0 & r & Hbe & Hlen & -> & _). lia.
  - apply (Hnode _ (locateAsteriskPattern (locate sym str) t str).2); [done..|].
    eexists. split; [apply locateAsteriskPattern_marks|]. cbv beta. lia.
  - apply (Hnode _ (locateCharacterClassPattern cclass t str).2); [done..|].
    eexists. split; [apply locateCharacterClassPattern_marks|]. cbv beta. lia.
Qed.

Lemma locate_in_range pat str b e :
  matches (locate pat str) b e = true → b ≤ e ≤ strlen str.
Proof.
  destruct (locate_table pat str) as (t & Ht & _ & _ & Hrange).
  unfold matches. rewrite Ht. apply Hrange.
Qed.

(** Hops of a located child lead forward and stay inside the input. *)
Lemma hops_in_range C str b e :
  rtc (hop (locate C str)) b e → b ≤ strlen str → b ≤ e ≤ strlen str.
Proof.
  induction 1 as [x|x y z Hxy _ IH]; intros Hx; [lia|].
  apply locate_in_range in Hxy. lia.
Qed.

(** X9.  The star node marks at least the closure of the child's matches:
    every position reached by hops is an end of a marked interval. *)
Lemma asterisk_contains_closure len0 t0 C str b e :
  b ≤ strlen str →
  rtc (hop (locate C str)) b e →
  matches (locate (RepetitionPattern len0 t0 LAsterisk C) str) b e = true.
Proof.
  intros Hb Hreach.
  change (matches (locate (RepetitionPattern len0 t0 LAsterisk C) str) b e)
    with (table_get (locateAsteriskPattern (locate C str) t0 str).2 b e).
  apply (marks_fresh _ _ _ _ _ (locateAsteriskPattern_marks _ _ _)).
  pose proof (hops_in_range _ _ _ _ Hreach Hb) as Hbe. split; [done|].
  apply rtc_inv in Hreach as [->|(y & Hby & Hye)]; [by left|].
  right. exists y.
  pose proof (locate_in_range _ _ _ _ Hby) as Hy.
  pose proof (hops_in_range _ _ _ _ Hye) as Hy'.
  split; [lia|]. by left.
Qed.

Lemma asterisk_contains_closure_witness :
  (0 ≤ strlen (cstr "aa") ∧
   rtc (hop (locate (makeSymbolPattern "a") (cstr "aa"))) 0 2) ∧
  matches (locate (RepetitionPattern 0 None LAsterisk (makeSymbolPattern "a"))
             (cstr "aa")) 0 2 = true.
Proof.
  assert (0 ≤ strlen (cstr "aa")) as H1 by lia.
  assert (rtc (hop (locate (makeSymbolPattern "a") (cstr "aa"))) 0 2) as H2.
  { apply (rtc_l _ 0 1 2); [reflexivity|]. apply rtc_once. reflexivity. }
  split; [exact (conj H1 H2)|].
  exact (asterisk_contains_closure 0 None (makeSymbolPattern "a") (cstr "aa") 0 2 H1 H2).
Defined.

(** X6.  Where one of the two children matches nothing on the line, the
    alternation node holds the union of the children's tables. *)
Theorem alteration_union_when_one_silent len0 t0 L R str b e :
  (∀ x y, matches (locate L str) x y = false) ∨
  (∀ x y, matches (locate R str) x y = false) →
  matches (locate (BinaryPattern len0 t0 LAlteration L R) str) b e =
  matches (locate L str) b e || matches (locate R str) b e.
Proof.
  intros Hsilent. apply Bool.eq_iff_eq_true. split; [apply alteration_sound|].
  intros Hunion.
  assert (b ≤ e ≤ strlen str) as Hbe.
  { apply orb_true_iff in Hunion as [H|H]; by apply locate_in_range in H. }
  change (matches (locate (BinaryPattern len0 t0 LAlteration L R) str) b e)
    with (table_get (locateAlterationPattern (locate L str) (locate R str) t0 str).2 b e).
  destruct (locateAlterationPattern_spec (locate L str) (locate R str) t0 str)
    as [[_ Hnone]|(b0 & e0 & (_ & Hhit & _) & ->)].
  { rewrite Hnone in Hunion; done. }
  apply (marks_fresh _ _ _ _ _ (copy_matches_marks _ _ _ (wf_newTable _))).
  split; [done|].
  destruct Hsilent as [HL|HR].
  - rewrite HL. by rewrite HL in Hunion.
  - rewrite HR, orb_false_r in Hhit. rewrite Hhit.
    by rewrite HR, orb_false_r in Hunion.
Qed.

Lemma alteration_union_when_one_silent_witness :
  ((∀ x y, matches (locate (makeSymbolPattern "a") (cstr "bb")) x y = false) ∨
   (∀ x y, matches (locate (makeSymbolPattern "b") (cstr "bb")) x y = false)) ∧
  matches (locate (BinaryPattern 0 None LAlteration
                     (makeSymbolPattern "a") (makeSymbolPattern "b")) (cstr "bb")) 1 2 =
  matches (locate (makeSymbolPattern "a") (cstr "bb")) 1 2 ||
  matches (locate (makeSymbolPattern "b") (cstr "bb")) 1 2.
Proof.
  assert (∀ x y, matches (locate (makeSymbolPattern "a") (cstr "bb")) x y = false) as H.
  { intros x y. apply not_true_is_false. intros Hm.
    apply symbol_matches in Hm as (Hx & _ & Hc).
    destruct x as [|[|x]]; [discriminate|discriminate|]. vm_compute in Hx. lia. }
  split; [by left|].
  exact (alteration_union_when_one_silent 0 None (makeSymbolPattern "a")
           (makeSymbolPattern "b") (cstr "bb") 1 2 (or_introl H)).
Defined.

(** X12.  After [locate] every node of the tree, not the root alone,
    records the length of the line and carries a table of
    [(len + 1) x (len + 1)] entries in which only intervals
    [b <= e <= len] are marked. *)
Theorem locate_all_nodes pat str :
  Forall (fun n =>
            pat_len n = strlen str ∧
            ∃ t, pat_table n = Some t ∧ wf_table (strlen str) t ∧
                 ∀ b e, table_get t b e = true → b ≤ e ≤ strlen str)
         (nodes (locate pat str)).
Proof.
  induction pat as [len t fn sym | len t fn p1 IH1 p2 IH2 | len t fn sym IH | len t cclass].
  - destruct (locate_table (SymbolPattern len t fn sym) str) as (t' & ? & ? & ? & ?).
    destruct fn; (constructor; [eauto 6|constructor]).
  - destruct (locate_binary len t fn p1 p2 str) as [t' Heq].
    pose proof (locate_table (BinaryPattern len t fn p1 p2) str) as (t'' & ? & ? & ? & ?).
    rewrite Heq in *. simpl. constructor; [eauto 6|].
    by apply Forall_app.
  - destruct (locate_repetition len t fn sym str) as [t' Heq].
    pose proof (locate_table (RepetitionPattern len t fn sym) str) as (t'' & ? & ? & ? & ?).
    rewrite Heq in *. simpl. constructor; [eauto 6|done].
  - destruct (locate_table (CharacterClassPattern len t cclass) str) as (t' & ? & ? & ? & ?).
    constructor; [eauto 6|constructor].
Qed.

(** ** Idempotence *)

(** C9.  Running [locate] a second time on the same input leaves the whole
    tree, every table of every node included, as the first run made it. *)
Theorem locate_idempotent pat str :
  locate (locate pat str) str = locate pat str.
Proof.
  induction pat as [len t fn sym | len t fn p1 IH1 p2 IH2 | len t fn sym IH | len t cclass].
  - destruct fn; reflexivity.
  - destruct fn; simpl; rewrite IH1, IH2; reflexivity.
  - destruct fn; simpl; rewrite IH; reflexivity.
  - reflexivity.
Qed.

(** X13.  Nothing of an earlier line is left in the tables: a tree that has
    been located on [str1] is located on [str2] as a fresh one is. *)
Lemma locate_forgets pat str1 str2 :
  locate (locate pat str1) str2 = locate pat str2.
Proof.
  induction pat as [len t fn sym | len t fn p1 IH1 p2 IH2 | len t fn sym IH | len t cclass].
  - destruct fn; reflexivity.
  - destruct fn; simpl; rewrite IH1, IH2; reflexivity.
  - destruct fn; simpl; rewrite IH; reflexivity.
  - reflexivity.
Qed.

(** ** Parser *)

(** *** Scans that never find their closing character *)

Lemma read_in str pos : pos < strlen str → read str pos = Ok (nth pos str NUL).
Proof.
  intros Hpos. unfold read.
  destruct (pos <? strlen str)%nat eqn:Hlt; [done|].
  apply Nat.ltb_ge in Hlt. lia.
Qed.

Lemma read_end str : read str (strlen str) = Ok NUL.
Proof. unfold read. by rewrite Nat.ltb_irrefl, Nat.eqb_refl. Qed.

Lemma read_past str pos : strlen str < pos → read str pos = Err PastTerminator.
Proof.
  intros Hpos. unfold read.
  destruct (pos <? strlen str)%nat eqn:Hlt; [apply Nat.ltb_lt in Hlt; lia|].
  destruct (pos =? strlen str)%nat eqn:Heq; [apply Nat.eqb_eq in Heq; lia|done].
Qed.

(** The group scan has no test for the end of the pattern: without a close
    parenthesis ahead it copies the terminator too and reads behind it. *)
Lemma scanGroup_unclosed str fuel :
  ∀ pos subs,
    pos ≤ S (strlen str) →
    strlen str + 2 ≤ fuel + pos →
    (∀ q, pos ≤ q < strlen str → nth q str NUL ≠ ")") →
    scanGroup str fuel pos subs = Err PastTerminator.
Proof.
  induction fuel as [|fuel IH]; intros pos subs Hpos Hfuel Hno; [lia|].
  simpl.
  destruct (decide (pos < strlen str)) as [Hlt|Hge].
  - rewrite read_in by done. simpl.
    destruct (Ascii.eqb (nth pos str NUL) ")") eqn:Hc.
    + apply Ascii.eqb_eq in Hc. destruct (Hno pos); [lia|done].
    + apply IH; [lia|lia|]. intros q Hq. apply Hno. lia.
  - destruct (decide (pos = strlen str)) as [->|Hne].
    + rewrite read_end. simpl. apply IH; [lia|lia|]. intros q Hq. lia.
    + by rewrite read_past by lia.
Qed.

(** The class scan tests for the end of the pattern in every turn. *)
Lemma scanClass_unclosed str fuel :
  ∀ pos subs,
    pos ≤ strlen str →
    strlen str + 1 ≤ fuel + pos →
    (∀ q, pos ≤ q < strlen str → nth q str NUL ≠ "]") →
    scanClass str fuel pos subs = Err InvalidPattern.
Proof.
  induction fuel as [|fuel IH]; intros pos subs Hpos Hfuel Hno; [lia|].
  simpl.
  destruct (decide (pos < strlen str)) as [Hlt|Hge].
  - rewrite read_in by done. simpl.
    destruct (Ascii.eqb (nth pos str NUL) "]") eqn:Hc.
    + apply Ascii.eqb_eq in Hc. destruct (Hno pos); [lia|done].
    + destruct (is_nul (nth pos str NUL)) eqn:Hnul; [done|].
      apply IH; [lia|lia|]. intros q Hq. apply Hno. lia.
  - assert (pos = strlen str) as -> by lia.
    by rewrite read_end.
Qed.

Lemma parseAtomicPattern_unclosed_group rec str pos :
  pos < strlen str →
  nth pos str NUL = "(" →
  (∀ q, pos < q < strlen str → nth q str NUL ≠ ")") →
  parseAtomicPattern rec str pos = Err PastTerminator.
Proof.
  intros Hpos Hc Hno. unfold parseAtomicPattern.
  rewrite read_in, Hc by done. cbn -[scanGroup].
  rewrite scanGroup_unclosed; [done|lia|lia|].
  intros q Hq. apply Hno. lia.
Qed.

Lemma parseAtomicPattern_unclosed_class rec str pos :
  pos < strlen str →
  nth pos str NUL = "[" →
  (∀ q, pos < q < strlen str → nth q str NUL ≠ "]") →
  parseAtomicPattern rec str pos = Err InvalidPattern.
Proof.
  intros Hpos Hc Hno. unfold parseAtomicPattern.
  rewrite read_in, Hc by done. cbn -[scanClass].
  rewrite scanClass_unclosed; [done|lia|lia|].
  intros q Hq. apply Hno. lia.
Qed.

(** An error of the first atom is the error of the whole parse. *)
Lemma parsePattern_first_atom_error str e :
  (∀ rec, parseAtomicPattern rec str 0 = Err e) →
  parsePattern str = Err e.
Proof.
  intros Hatom. unfold parsePattern. simpl.
  unfold parseAlternation, parseConcatenation, parseRepetition.
  by rewrite Hatom.
Qed.

(** X23.  A pattern that opens a group at once and holds no close
    parenthesis at all is not rejected: the scan leaves the string. *)
Lemma parsePattern_unclosed_group text :
  (∀ q, q < strlen text → nth q text NUL ≠ ")") →
  parsePattern ("(" :: text) = Err PastTerminator.
Proof.
  intros Hno. apply parsePattern_first_atom_error. intros rec.
  apply parseAtomicPattern_unclosed_group.
  - simpl. lia.
  - done.
  - intros [|q] Hq; [lia|]. simpl in *. apply Hno. lia.
Qed.

Lemma parsePattern_unclosed_group_witness :
  (∀ q, q < strlen (cstr "ab") → nth q (cstr "ab") NUL ≠ ")") ∧
  parsePattern ("(" :: cstr "ab") = Err PastTerminator.
Proof.
  assert (∀ q, q < strlen (cstr "ab") → nth q (cstr "ab") NUL ≠ ")") as H.
  { intros q Hq. do 2 (destruct q as [|q]; [discriminate|]). vm_compute in Hq. lia. }
  split; [exact H|]. exact (parsePattern_unclosed_group (cstr "ab") H).
Defined.

(** X22.  A pattern that opens a class at once and holds no close bracket
    at all is rejected. *)
Lemma parsePattern_unclosed_class text :
  (∀ q, q < strlen text → nth q text NUL ≠ "]") →
  parsePattern ("[" :: text) = Err InvalidPattern.
Proof.
  intros Hno. apply parsePattern_first_atom_error. intros rec.
  apply parseAtomicPattern_unclosed_class.
  - simpl. lia.
  - done.
  - intros [|q] Hq; [lia|]. simpl in *. apply Hno. lia.
Qed.

Lemma parsePattern_unclosed_class_witness :
  (∀ q, q < strlen (cstr "ab") → nth q (cstr "ab") NUL ≠ "]") ∧
  parsePattern ("[" :: cstr "ab") = Err InvalidPattern.
Proof.
  assert (∀ q, q < strlen (cstr "ab") → nth q (cstr "ab") NUL ≠ "]") as H.
  { intros q Hq. do 2 (destruct q as [|q]; [discriminate|]). vm_compute in Hq. lia. }
  split; [exact H|]. exact (parsePattern_unclosed_class (cstr "ab") H).
Defined.

(** *** The fuel of the model is never the reason for a result *)

Lemma strlen_le_length s : strlen s ≤ length s.
Proof.
  induction s as [|c s IH]; simpl; [done|].
  destruct (Ascii.eqb c NUL); lia.
Qed.

Lemma read_ok_inv str pos c :
  read str pos = Ok c → pos ≤ strlen str ∧ (c ≠ NUL → pos < strlen str).
Proof.
  unfold read.
  destruct (pos <? strlen str)%nat eqn:Hlt.
  { apply Nat.ltb_lt in Hlt. intros _. split; [lia|done]. }
  destruct (pos =? strlen str)%nat eqn:Heq; [|done].
  apply Nat.eqb_eq in Heq. intros [= <-]. split; [lia|done].
Qed.

Lemma read_err_inv str pos e : read str pos = Err e → e = PastTerminator.
Proof.
  unfold read.
  destruct (pos <? strlen str)%nat; [done|].
  destruct (pos =? strlen str)%nat; [done|]. by intros [= <-].
Qed.

Lemma scanGroup_within str fuel :
  ∀ pos subs,
    pos ≤ S (strlen str) →
    strlen str + 2 ≤ fuel + pos →
    scan_within str pos subs (scanGroup str fuel pos subs).
Proof.
  induction fuel as [|fuel IH]; intros pos subs Hpos Hfuel; [lia|].
  simpl. destruct (read str pos) as [c|e] eqn:Hread; simpl.
  - apply read_ok_inv in Hread as [Hle Hlt].
    destruct (Ascii.eqb c ")") eqn:Hc; simpl.
    + apply Ascii.eqb_eq in Hc. subst c. split; [|lia]. split; [lia|by apply Hlt].
    + specialize (IH (S pos) (subs ++ [c])).
      destruct (scanGroup str fuel (S pos) (subs ++ [c])) as [[subs' close]|e];
        simpl in *.
      * destruct IH as [Hclose Hlen]; [lia|lia|].
        rewrite length_app in Hlen. simpl in Hlen. lia.
      * apply IH; lia.
  - apply read_err_inv in Hread. by subst e.
Qed.

Lemma scanClass_within str fuel :
  ∀ pos subs,
    pos ≤ strlen str →
    strlen str + 1 ≤ fuel + pos →
    scan_within str pos subs (scanClass str fuel pos subs).
Proof.
  induction fuel as [|fuel IH]; intros pos subs Hpos Hfuel; [lia|].
  simpl. destruct (read str pos) as [c|e] eqn:Hread; simpl.
  - apply read_ok_inv in Hread as [Hle Hlt].
    destruct (Ascii.eqb c "]") eqn:Hc; simpl.
    + apply Ascii.eqb_eq in Hc. subst c. split; [|lia]. split; [lia|by apply Hlt].
    + destruct (is_nul c) eqn:Hnul; simpl; [done|].
      assert (c ≠ NUL) as Hc' by (intros ->; vm_compute in Hnul; discriminate).
      specialize (Hlt Hc').
      specialize (IH (S pos) (subs ++ [c])).
      destruct (scanClass str fuel (S pos) (subs ++ [c])) as [[subs' close]|e];
        simpl in *.
      * destruct IH as [Hclose Hlen]; [lia|lia|].
        rewrite length_app in Hlen. simpl in Hlen. lia.
      * apply IH; lia.
  - apply read_err_inv in Hread. by subst e.
Qed.

Section Fuel.

Variable parsePattern_rec : list ascii -> result Pattern.
Variable str : list ascii.

(** The recursive call does not run out of fuel on the text of a group,
    which is shorter than the pattern. *)
Hypothesis rec_fuel :
  ∀ subs, strlen subs < strlen str → parsePattern_rec subs ≠ Err OutOfFuel.

Lemma parseAtomicPattern_within pos :
  pos ≤ strlen str →
  ends_within (S pos) (strlen str) (parseAtomicPattern parsePattern_rec str pos).
Proof.
  intros Hpos. unfold parseAtomicPattern.
  remember (S (S (strlen str))) as fuel eqn:Hfuel.
  destruct (read str pos) as [c|e] eqn:Hread; simpl;
    [|apply read_err_inv in Hread; by subst e].
  apply read_ok_inv in Hread as [_ Hlt].
  destruct (ordinary c) eqn:Hord; simpl.
  { assert (c ≠ NUL) as Hc by (intros ->; vm_compute in Hord; discriminate).
    specialize (Hlt Hc). lia. }
  destruct (is_nul c) eqn:Hnul; simpl; [discriminate|].
  assert (c ≠ NUL) as Hc by (intros ->; vm_compute in Hnul; discriminate).
  specialize (Hlt Hc).
  destruct (strchr _ c); simpl; [|discriminate].
  destruct (Ascii.eqb c "(").
  { pose proof (scanGroup_within str fuel (S pos) []) as Hscan.
    destruct (scanGroup str fuel (S pos) []) as [[subs close]|e];
      simpl in *; [|apply Hscan; lia].
    destruct Hscan as [Hclose Hlen]; [lia|lia|].
    pose proof (strlen_le_length subs) as Hsubs.
    pose proof (rec_fuel subs) as Hrec.
    destruct (parsePattern_rec subs) as [p|e]; simpl; [lia|].
    intros ->. apply Hrec; [lia|done]. }
  destruct (Ascii.eqb c "[").
  { pose proof (scanClass_within str fuel (S pos) []) as Hscan.
    destruct (scanClass str fuel (S pos) []) as [[subs close]|e];
      simpl in *; [|apply Hscan; lia].
    destruct Hscan as [Hclose Hlen]; lia. }
  simpl. lia.
Qed.

Lemma repetition_loop_within fuel :
  ∀ pos p,
    pos ≤ strlen str →
    strlen str + 1 ≤ fuel + pos →
    ends_within pos (strlen str) (repetition_loop str fuel pos p).
Proof.
  induction fuel as [|fuel IH]; intros pos p Hpos Hfuel; [lia|].
  simpl. destruct (read str pos) as [c|e] eqn:Hread; simpl;
    [|apply read_err_inv in Hread; by subst e].
  apply read_ok_inv in Hread as [_ Hlt].
  destruct (is_nul c) eqn:Hnul; simpl; [lia|].
  assert (c ≠ NUL) as Hc by (intros ->; vm_compute in Hnul; discriminate). specialize (Hlt Hc).
  assert (∀ q, ends_within (S pos) (strlen str) (repetition_loop str fuel (S pos) q) →
               ends_within pos (strlen str) (repetition_loop str fuel (S pos) q))
    as Hweaken.
  { intros q. destruct (repetition_loop str fuel (S pos) q) as [[? ?]|?]; simpl; [lia|done]. }
  destruct (Ascii.eqb c "*"); simpl; [apply Hweaken, IH; lia|].
  destruct (Ascii.eqb c "+"); simpl; [apply Hweaken, IH; lia|].
  destruct (Ascii.eqb c "?"); simpl; [apply Hweaken, IH; lia|].
  lia.
Qed.

Lemma parseRepetition_within pos :
  pos ≤ strlen str →
  ends_within (S pos) (strlen str) (parseRepetition parsePattern_rec str pos).
Proof.
  intros Hpos. unfold parseRepetition.
  remember (S (strlen str)) as fuel eqn:Hfuel.
  pose proof (parseAtomicPattern_within pos Hpos) as Hatom.
  destruct (parseAtomicPattern parsePattern_rec str pos) as [[p pos']|e];
    simpl in *; [|done].
  pose proof (repetition_loop_within fuel pos' p) as Hloop.
  destruct (repetition_loop str fuel pos' p) as [[p' pos'']|e];
    simpl in *; [|apply Hloop; lia].
  destruct Hloop; lia.
Qed.

Lemma concatenation_loop_within fuel :
  ∀ pos p1,
    pos ≤ strlen str →
    strlen str + 1 ≤ fuel + pos →
    ends_within pos (strlen str) (concatenation_loop parsePattern_rec str fuel pos p1).
Proof.
  induction fuel as [|fuel IH]; intros pos p1 Hpos Hfuel; [lia|].
  simpl. destruct (read str pos) as [c|e] eqn:Hread; simpl;
    [|apply read_err_inv in Hread; by subst e].
  apply read_ok_inv in Hread as [_ Hlt].
  destruct (is_nul c) eqn:Hnul; simpl; [lia|].
  assert (c ≠ NUL) as Hc by (intros ->; vm_compute in Hnul; discriminate). specialize (Hlt Hc).
  destruct (negb (Ascii.eqb c "|") && negb (Ascii.eqb c ")")); simpl; [|lia].
  pose proof (parseRepetition_within pos Hpos) as Hrep.
  destruct (parseRepetition parsePattern_rec str pos) as [[p2 pos']|e];
    simpl in *; [|done].
  specialize (IH pos' (makeConcatenationPattern p1 p2)).
  destruct (concatenation_loop parsePattern_rec str fuel pos'
              (makeConcatenationPattern p1 p2)) as [[p' pos'']|e];
    simpl in *; [|apply IH; lia].
  destruct IH; lia.
Qed.

Lemma parseConcatenation_within pos :
  pos ≤ strlen str →
  ends_within (S pos) (strlen str) (parseConcatenation parsePattern_rec str pos).
Proof.
  intros Hpos. unfold parseConcatenation.
  remember (S (strlen str)) as fuel eqn:Hfuel.
  pose proof (parseRepetition_within pos Hpos) as Hrep.
  destruct (parseRepetition parsePattern_rec str pos) as [[p pos']|e];
    simpl in *; [|done].
  pose proof (concatenation_loop_within fuel pos' p) as Hloop.
  destruct (concatenation_loop parsePattern_rec str fuel pos' p)
    as [[p' pos'']|e]; simpl in *; [|apply Hloop; lia].
  destruct Hloop; lia.
Qed.

Lemma alternation_loop_within fuel :
  ∀ pos p1,
    pos ≤ strlen str →
    strlen str + 1 ≤ fuel + pos →
    ends_within pos (strlen str) (alternation_loop parsePattern_rec str fuel pos p1).
Proof.
  induction fuel as [|fuel IH]; intros pos p1 Hpos Hfuel; [lia|].
  simpl. destruct (read str pos) as [c|e] eqn:Hread; simpl;
    [|apply read_err_inv in Hread; by subst e].
  apply read_ok_inv in Hread as [_ Hlt].
  destruct (is_nul c) eqn:Hnul; simpl; [lia|].
  assert (c ≠ NUL) as Hc by (intros ->; vm_compute in Hnul; discriminate). specialize (Hlt Hc).
  destruct (Ascii.eqb c "|"); simpl; [|lia].
  pose proof (parseConcatenation_within (S pos)) as Hcat.
  destruct (parseConcatenation parsePattern_rec str (S pos)) as [[p2 pos']|e];
    simpl in *; [|apply Hcat; lia].
  specialize (IH pos' (makeAlterationPattern p1 p2)).
  destruct (alternation_loop parsePattern_rec str fuel pos'
              (makeAlterationPattern p1 p2)) as [[p' pos'']|e];
    simpl in *; [|apply IH; lia].
  destruct IH; lia.
Qed.

Lemma parseAlternation_within pos :
  pos ≤ strlen str →
  ends_within (S pos) (strlen str) (parseAlternation parsePattern_rec str pos).
Proof.
  intros Hpos. unfold parseAlternation.
  remember (S (strlen str)) as fuel eqn:Hfuel.
  pose proof (parseConcatenation_within pos Hpos) as Hcat.
  destruct (parseConcatenation parsePattern_rec str pos) as [[p pos']|e];
    simpl in *; [|done].
  pose proof (alternation_loop_within fuel pos' p) as Hloop.
  destruct (alternation_loop parsePattern_rec str fuel pos' p)
    as [[p' pos'']|e]; simpl in *; [|apply Hloop; lia].
  destruct Hloop; lia.
Qed.

End Fuel.

Lemma parsePattern_depth_fuel depth :
  ∀ str, strlen str < depth → parsePattern_depth depth str ≠ Err OutOfFuel.
Proof.
  induction depth as [|depth IH]; intros str Hdepth; [lia|].
  simpl.
  assert (ends_within 1 (strlen str)
            (parseAlternation (parsePattern_depth depth) str 0)) as Halt.
  { apply parseAlternation_within; [|lia].
    intros subs Hsubs. apply IH. lia. }
  destruct (parseAlternation (parsePattern_depth depth) str 0) as [[pat pos]|e];
    simpl in *.
  - destruct (read str pos) as [c|e] eqn:Hread; simpl.
    + by destruct (negb (is_nul c)).
    + apply read_err_inv in Hread. by subst e.
  - by intros [= ->].
Qed.

(** X14.  The parser comes to an end on every pattern: each level moves
    forward in the string, so the turns the model allows the loops and the
    depth it allows the groups are never used up. *)
Lemma parsePattern_total str : parsePattern str ≠ Err OutOfFuel.
Proof. apply parsePattern_depth_fuel. lia. Qed.

(** *** Reading a pattern by parts *)

Lemma strlen_app pre rest :
  Forall (fun c => c ≠ NUL) pre → strlen (pre ++ rest) = length pre + strlen rest.
Proof.
  induction pre as [|c pre IH]; intros Hpre; simpl; [done|].
  apply Forall_cons in Hpre as [Hc Hpre].
  apply Ascii.eqb_neq in Hc. by rewrite Hc, IH.
Qed.

(** Behind a part [pre] without NUL the parser reads the first character
    of the rest, or the terminator where nothing is left. *)
Lemma read_app pre rest :
  Forall (fun c => c ≠ NUL) pre → read (pre ++ rest) (length pre) = Ok (hd NUL rest).
Proof.
  intros Hpre. unfold read. rewrite strlen_app by done.
  destruct rest as [|c rest]; simpl.
  - by rewrite Nat.add_0_r, Nat.ltb_irrefl, Nat.eqb_refl.
  - destruct (Ascii.eqb c NUL) eqn:Hc.
    + apply Ascii.eqb_eq in Hc. subst c.
      by rewrite Nat.add_0_r, Nat.ltb_irrefl, Nat.eqb_refl.
    + destruct (length pre <? length pre + S (strlen rest))%nat eqn:Hlt.
      * by rewrite app_nth2, Nat.sub_diag by lia.
      * apply Nat.ltb_ge in Hlt. lia.
Qed.

Lemma read_first str : read str 0 = Ok (hd NUL str).
Proof. exact (read_app [] str (Forall_nil_2 _)). Qed.

Lemma ordinary_not_nul c : ordinary c = true → c ≠ NUL.
Proof. intros Hord ->. vm_compute in Hord. discriminate. Qed.

Lemma ordinary_not_suffix c : ordinary c = true → suffix_char c = false.
Proof.
  intros Hord. unfold suffix_char.
  destruct (Ascii.eqb_spec c "*") as [->|_]; [vm_compute in Hord; discriminate|].
  destruct (Ascii.eqb_spec c "+") as [->|_]; [vm_compute in Hord; discriminate|].
  destruct (Ascii.eqb_spec c "?") as [->|_]; [vm_compute in Hord; discriminate|done].
Qed.

Lemma ordinary_not_stop c : ordinary c = true → stop_char c = false.
Proof.
  intros Hord. unfold stop_char, is_nul.
  destruct (Ascii.eqb_spec c NUL) as [->|_]; [vm_compute in Hord; discriminate|].
  destruct (Ascii.eqb_spec c "|") as [->|_]; [vm_compute in Hord; discriminate|].
  destruct (Ascii.eqb_spec c ")") as [->|_]; [vm_compute in Hord; discriminate|done].
Qed.

Lemma stop_not_suffix c : stop_char c = true → suffix_char c = false.
Proof.
  unfold stop_char, is_nul, suffix_char.
  destruct (Ascii.eqb_spec c NUL) as [->|_]; [done|].
  destruct (Ascii.eqb_spec c "|") as [->|_]; [done|].
  destruct (Ascii.eqb_spec c ")") as [->|_]; [done|done].
Qed.

Lemma Forall_ordinary_not_nul w :
  Forall (fun c => ordinary c = true) w → Forall (fun c => c ≠ NUL) w.
Proof.
  intros Hw. eapply Forall_impl; [exact Hw|]. intros c. apply ordinary_not_nul.
Qed.

Section Parts.

Variable rec : list ascii -> result Pattern.

Lemma parseAtomicPattern_ordinary pre c rest :
  Forall (fun c => c ≠ NUL) pre →
  ordinary c = true →
  parseAtomicPattern rec (pre ++ c :: rest) (length pre) =
  Ok (makeSymbolPattern c, S (length pre)).
Proof.
  intros Hpre Hord. unfold parseAtomicPattern.
  rewrite read_app by done. simpl. by rewrite Hord.
Qed.

(** The repetition loop takes every suffix character in turn and stops
    in front of the first character that is none. *)
Lemma repetition_loop_suffixes qs :
  ∀ pre rest fuel p,
    Forall (fun c => c ≠ NUL) pre →
    Forall (fun q => suffix_char q = true) qs →
    suffix_char (hd NUL rest) = false →
    length qs < fuel →
    repetition_loop (pre ++ qs ++ rest) fuel (length pre) p =
    Ok (fold_left apply_suffix qs p, length pre + length qs).
Proof.
  induction qs as [|q qs IH]; intros pre rest fuel p Hpre Hqs Hrest Hfuel;
    (destruct fuel as [|fuel]; [simpl in Hfuel; lia|]); simpl.
  - rewrite read_app by done. simpl.
    unfold suffix_char in Hrest. rewrite Hrest, andb_false_r, Nat.add_0_r. done.
  - apply Forall_cons in Hqs as [Hq Hqs].
    rewrite read_app by done. simpl.
    assert (is_nul q = false) as Hnul.
    { unfold is_nul. destruct (Ascii.eqb_spec q NUL) as [->|]; [discriminate|done]. }
    pose proof Hq as Hq'. unfold suffix_char in Hq'. rewrite Hnul, Hq'. simpl.
    assert (Forall (fun c => c ≠ NUL) (pre ++ [q])) as Hpre'.
    { apply Forall_app. split; [done|]. apply Forall_singleton.
      intros ->. discriminate. }
    specialize (IH (pre ++ [q]) rest fuel (apply_suffix p q) Hpre' Hqs Hrest).
    rewrite <- app_assoc, length_app in IH. simpl in IH.
    replace (length pre + 1) with (S (length pre)) in IH by lia.
    replace (length pre + S (length qs)) with (S (length pre) + length qs) by lia.
    unfold apply_suffix in *.
    destruct (Ascii.eqb q "*"); [apply IH; simpl in Hfuel; lia|].
    destruct (Ascii.eqb q "+"); [apply IH; simpl in Hfuel; lia|].
    destruct (Ascii.eqb q "?"); [apply IH; simpl in Hfuel; lia|].
    discriminate.
Qed.

Lemma parseRepetition_symbol pre c qs rest :
  Forall (fun c => c ≠ NUL) pre →
  ordinary c = true →
  Forall (fun q => suffix_char q = true) qs →
  suffix_char (hd NUL rest) = false →
  parseRepetition rec (pre ++ c :: qs ++ rest) (length pre) =
  Ok (fold_left apply_suffix qs (makeSymbolPattern c), S (length pre) + length qs).
Proof.
  intros Hpre Hord Hqs Hrest. unfold parseRepetition.
  rewrite parseAtomicPattern_ordinary by done. simpl.
  assert (Forall (fun c => c ≠ NUL) (pre ++ [c])) as Hpre'.
  { apply Forall_app. split; [done|]. apply Forall_singleton.
    by apply ordinary_not_nul. }
  pose proof (repetition_loop_suffixes qs (pre ++ [c]) rest
                (S (strlen (pre ++ c :: qs ++ rest))) (makeSymbolPattern c)
                Hpre' Hqs Hrest) as Hloop.
  rewrite <- app_assoc, length_app in Hloop. simpl in Hloop.
  replace (length pre + 1) with (S (length pre)) in Hloop by lia.
  apply Hloop.
  assert (Forall (fun q => q ≠ NUL) qs) as Hqs'.
  { eapply Forall_impl; [exact Hqs|]. intros q Hq ->. discriminate. }
  rewrite strlen_app by done. simpl.
  apply ordinary_not_nul, Ascii.eqb_neq in Hord. rewrite Hord.
  rewrite strlen_app by done. lia.
Qed.

(** The concatenation loop adds the ordinary symbols of a word one by one
    and stops at the end of the pattern, at a bar or at a close
    parenthesis. *)
Lemma concatenation_loop_word w :
  ∀ pre rest fuel p1,
    Forall (fun c => c ≠ NUL) pre →
    Forall (fun c => ordinary c = true) w →
    stop_char (hd NUL rest) = true →
    length w < fuel →
    concatenation_loop rec (pre ++ w ++ rest) fuel (length pre) p1 =
    Ok (fold_left extend_word w p1, length pre + length w).
Proof.
  induction w as [|c w IH]; intros pre rest fuel p1 Hpre Hw Hrest Hfuel;
    (destruct fuel as [|fuel]; [simpl in Hfuel; lia|]).
  - simpl. rewrite read_app by done. simpl.
    unfold stop_char in Hrest.
    destruct (is_nul (hd NUL rest)); simpl; [by rewrite Nat.add_0_r|].
    simpl in Hrest. apply orb_true_iff in Hrest as [->| ->]; simpl;
      rewrite ?andb_false_r, Nat.add_0_r; done.
  - apply Forall_cons in Hw as [Hc Hw].
    cbn [concatenation_loop app]. rewrite read_app by done. cbn [hd mbind result_bind].
    pose proof (ordinary_not_stop c Hc) as Hstop. unfold stop_char in Hstop.
    apply orb_false_iff in Hstop as [Hstop H3].
    apply orb_false_iff in Hstop as [H1 H2].
    rewrite H1, H2, H3. cbn [negb andb].
    pose proof (parseRepetition_symbol pre c [] (w ++ rest) Hpre Hc) as Hrep.
    cbn [app fold_left length] in Hrep. rewrite Nat.add_0_r in Hrep.
    rewrite Hrep; [|done|].
    2:{ destruct w as [|c' w]; simpl.
        - by apply stop_not_suffix.
        - apply Forall_cons in Hw as [Hc' _]. by apply ordinary_not_suffix. }
    cbn [mbind result_bind].
    assert (Forall (fun c => c ≠ NUL) (pre ++ [c])) as Hpre'.
    { apply Forall_app. split; [done|]. apply Forall_singleton.
      by apply ordinary_not_nul. }
    specialize (IH (pre ++ [c]) rest fuel (extend_word p1 c) Hpre' Hw Hrest).
    rewrite <- app_assoc, length_app in IH. simpl in IH.
    replace (length pre + 1) with (S (length pre)) in IH by lia.
    simpl. replace (length pre + S (length w)) with (S (length pre) + length w) by lia.
    apply IH. simpl in Hfuel. lia.
Qed.

Lemma parseConcatenation_word pre c w rest :
  Forall (fun c => c ≠ NUL) pre →
  Forall (fun c => ordinary c = true) (c :: w) →
  stop_char (hd NUL rest) = true →
  parseConcatenation rec (pre ++ c :: w ++ rest) (length pre) =
  Ok (word_tree c w, S (length pre) + length w).
Proof.
  intros Hpre Hcw Hrest. apply Forall_cons in Hcw as [Hc Hw].
  unfold parseConcatenation.
  pose proof (parseRepetition_symbol pre c [] (w ++ rest) Hpre Hc) as Hrep.
  cbn [app fold_left length] in Hrep. rewrite Nat.add_0_r in Hrep.
  rewrite Hrep; [|done|].
  2:{ destruct w as [|c' w']; simpl.
      - by apply stop_not_suffix.
      - apply Forall_cons in Hw as [Hc' _]. by apply ordinary_not_suffix. }
  cbn [mbind result_bind].
  assert (Forall (fun c => c ≠ NUL) (pre ++ [c])) as Hpre'.
  { apply Forall_app. split; [done|]. apply Forall_singleton.
    by apply ordinary_not_nul. }
  pose proof (concatenation_loop_word w (pre ++ [c]) rest
                (S (strlen (pre ++ c :: w ++ rest))) (makeSymbolPattern c)
                Hpre' Hw Hrest) as Hloop.
  rewrite <- app_assoc, length_app in Hloop. simpl in Hloop.
  replace (length pre + 1) with (S (length pre)) in Hloop by lia.
  apply Hloop.
  rewrite strlen_app by done. simpl.
  apply ordinary_not_nul, Ascii.eqb_neq in Hc. rewrite Hc.
  rewrite strlen_app by (by apply Forall_ordinary_not_nul). lia.
Qed.

End Parts.

Lemma bars_not_nul ws :
  Forall (fun cw => Forall (fun c => ordinary c = true) (cw.1 :: cw.2)) ws →
  Forall (fun c => c ≠ NUL) (bars ws).
Proof.
  induction ws as [|[c w] ws IH]; intros Hws; [constructor|].
  apply Forall_cons in Hws as [Hcw Hws].
  change (bars ((c, w) :: ws)) with (["|"] ++ (c :: w) ++ bars ws).
  apply Forall_app. split; [by apply Forall_singleton|].
  apply Forall_app. split; [|by apply IH].
  by apply Forall_ordinary_not_nul.
Qed.

Lemma bars_length ws : length ws ≤ length (bars ws).
Proof.
  induction ws as [|[c w] ws IH]; [done|].
  unfold bars in *. simpl. rewrite length_app. lia.
Qed.

Lemma bars_stop ws : stop_char (hd NUL (bars ws)) = true.
Proof. by destruct ws as [|[c w] ws]. Qed.

(** The alternation loop adds one alternative per bar. *)
Lemma alternation_loop_words rec ws :
  ∀ pre fuel p1,
    Forall (fun c => c ≠ NUL) pre →
    Forall (fun cw => Forall (fun c => ordinary c = true) (cw.1 :: cw.2)) ws →
    length ws < fuel →
    alternation_loop rec (pre ++ bars ws) fuel (length pre) p1 =
    Ok (fold_left extend_alternatives ws p1, length pre + length (bars ws)).
Proof.
  induction ws as [|[c w] ws IH]; intros pre fuel p1 Hpre Hws Hfuel;
    (destruct fuel as [|fuel]; [simpl in Hfuel; lia|]).
  - simpl. rewrite read_app by done. simpl. by rewrite Nat.add_0_r.
  - apply Forall_cons in Hws as [Hcw Hws]. simpl in Hcw.
    change (bars ((c, w) :: ws)) with ("|" :: c :: w ++ bars ws).
    cbn [alternation_loop]. rewrite read_app by done. cbn [hd mbind result_bind].
    change (negb (is_nul "|") && Ascii.eqb "|" "|") with true. cbv iota.
    assert (Forall (fun c => c ≠ NUL) (pre ++ ["|"])) as Hpre'.
    { apply Forall_app. split; [done|]. by apply Forall_singleton. }
    pose proof (parseConcatenation_word rec (pre ++ ["|"]) c w (bars ws)
                  Hpre' Hcw (bars_stop ws)) as Hcat.
    rewrite <- app_assoc, length_app in Hcat. simpl in Hcat.
    replace (length pre + 1) with (S (length pre)) in Hcat by lia.
    rewrite Hcat. cbn [mbind result_bind].
    assert (Forall (fun c => c ≠ NUL) (pre ++ "|" :: c :: w)) as Hpre''.
    { apply Forall_app. split; [done|]. constructor; [discriminate|].
      by apply Forall_ordinary_not_nul. }
    specialize (IH (pre ++ "|" :: c :: w) fuel
                  (makeAlterationPattern p1 (word_tree c w)) Hpre'' Hws).
    rewrite <- app_assoc, length_app in IH. simpl in IH.
    replace (length pre + S (S (length w))) with (S (S (length pre) + length w))
      in IH by lia.
    rewrite IH by (simpl in Hfuel; lia).
    simpl. rewrite length_app. do 2 f_equal. lia.
Qed.

Lemma strlen_nul_free str :
  Forall (fun c => c ≠ NUL) str → strlen str = length str.
Proof.
  intros Hstr. pose proof (strlen_app str [] Hstr) as Hlen.
  rewrite app_nil_r in Hlen. simpl in Hlen. lia.
Qed.

(** At the end of the pattern the loops of the three levels stop. *)
Lemma concatenation_loop_end rec str fuel p :
  Forall (fun c => c ≠ NUL) str → 0 < fuel →
  concatenation_loop rec str fuel (length str) p = Ok (p, length str).
Proof.
  intros Hstr Hfuel.
  pose proof (concatenation_loop_word rec [] str [] fuel p Hstr (Forall_nil_2 _) eq_refl)
    as Hloop.
  rewrite app_nil_r in Hloop. simpl in Hloop. rewrite Nat.add_0_r in Hloop.
  by apply Hloop.
Qed.

Lemma alternation_loop_end rec str fuel p :
  Forall (fun c => c ≠ NUL) str → 0 < fuel →
  alternation_loop rec str fuel (length str) p = Ok (p, length str).
Proof.
  intros Hstr Hfuel.
  pose proof (alternation_loop_words rec [] str fuel p Hstr (Forall_nil_2 _)) as Hloop.
  unfold bars in Hloop. simpl in Hloop. rewrite app_nil_r, Nat.add_0_r in Hloop.
  by apply Hloop.
Qed.

(** With the whole pattern parsed as an alternation, the tree is the
    result. *)
Lemma parsePattern_whole str pat :
  (∀ rec, parseAlternation rec str 0 = Ok (pat, strlen str)) →
  parsePattern str = Ok pat.
Proof.
  intros Halt. unfold parsePattern. simpl.
  rewrite Halt. simpl. by rewrite read_end.
Qed.

(** X15.  A pattern that is empty, or that starts with a repetition
    suffix, a bar, a close parenthesis or an open brace, is invalid. *)
Theorem parsePattern_bad_start str :
  strlen str = 0 ∨ hd NUL str ∈ ["*"; "+"; "?"; "|"; ")"; "{"] →
  parsePattern str = Err InvalidPattern.
Proof.
  intros Hbad. apply parsePattern_first_atom_error. intros rec.
  unfold parseAtomicPattern.
  destruct Hbad as [Hlen|Hin].
  - pose proof (read_end str) as Hread. rewrite Hlen in Hread. by rewrite Hread.
  - destruct str as [|c str]; simpl in Hin.
    { apply elem_of_cons in Hin as [Hin|Hin]; [discriminate|].
      repeat (apply elem_of_cons in Hin as [Hin|Hin]; [discriminate|]).
      by apply elem_of_nil in Hin. }
    assert (read (c :: str) 0 = Ok c) as ->.
    { rewrite read_in; [done|]. simpl.
      repeat (apply elem_of_cons in Hin as [->|Hin]; [simpl; lia|]).
      by apply elem_of_nil in Hin. }
    repeat (apply elem_of_cons in Hin as [->|Hin]; [reflexivity|]).
    by apply elem_of_nil in Hin.
Qed.

Lemma parsePattern_bad_start_witness :
  (strlen (cstr "*a") = 0 ∨ hd NUL (cstr "*a") ∈ ["*"; "+"; "?"; "|"; ")"; "{"]) ∧
  parsePattern (cstr "*a") = Err InvalidPattern.
Proof.
  assert (strlen (cstr "*a") = 0 ∨ hd NUL (cstr "*a") ∈ ["*"; "+"; "?"; "|"; ")"; "{"])
    as H by (right; apply list_elem_of_here).
  split; [exact H|]. exact (parsePattern_bad_start (cstr "*a") H).
Defined.

(** X16.  A pattern of ordinary symbols only parses into the symbols'
    nodes, concatenated one by one from the left. *)
Theorem parsePattern_word c w :
  Forall (fun c => ordinary c = true) (c :: w) →
  parsePattern (c :: w) = Ok (word_tree c w).
Proof.
  intros Hcw. apply parsePattern_whole. intros rec. unfold parseAlternation.
  pose proof (Forall_ordinary_not_nul _ Hcw) as Hnn.
  pose proof (parseConcatenation_word rec [] c w [] (Forall_nil_2 _) Hcw eq_refl) as Hcat.
  rewrite app_nil_r in Hcat. cbn [app length] in Hcat.
  rewrite Hcat. cbn [mbind result_bind].
  rewrite (strlen_nul_free _ Hnn).
  change (1 + length w) with (length (c :: w)).
  apply alternation_loop_end; [done|lia].
Qed.

Lemma parsePattern_word_witness :
  Forall (fun c => ordinary c = true) (cstr "ab]") ∧
  parsePattern (cstr "ab]") = Ok (word_tree "a" (cstr "b]")).
Proof.
  assert (Forall (fun c => ordinary c = true) (cstr "ab]")) as H
    by (repeat constructor).
  split; [exact H|]. exact (parsePattern_word "a" (cstr "b]") H).
Defined.

(** X17.  Repetition suffixes behind an ordinary symbol stack: each one
    wraps the pattern parsed so far, in the order in which they stand, and
    none is refused. *)
Theorem parsePattern_suffixes c qs :
  ordinary c = true →
  Forall (fun q => suffix_char q = true) qs →
  parsePattern (c :: qs) = Ok (fold_left apply_suffix qs (makeSymbolPattern c)).
Proof.
  intros Hc Hqs. apply parsePattern_whole. intros rec.
  assert (Forall (fun c => c ≠ NUL) (c :: qs)) as Hnn.
  { constructor; [by apply ordinary_not_nul|].
    eapply Forall_impl; [exact Hqs|]. intros q Hq ->. discriminate. }
  unfold parseAlternation, parseConcatenation.
  pose proof (parseRepetition_symbol rec [] c qs [] (Forall_nil_2 _) Hc Hqs eq_refl)
    as Hrep.
  rewrite app_nil_r in Hrep. cbn [app length] in Hrep.
  rewrite Hrep. cbn [mbind result_bind].
  rewrite (strlen_nul_free _ Hnn).
  change (1 + length qs) with (length (c :: qs)).
  rewrite concatenation_loop_end by (done || lia). cbn [mbind result_bind].
  apply alternation_loop_end; [done|lia].
Qed.

Lemma parsePattern_suffixes_witness :
  (ordinary "a" = true ∧ Forall (fun q => suffix_char q = true) (cstr "**?")) ∧
  parsePattern (cstr "a**?") =
  Ok (fold_left apply_suffix (cstr "**?") (makeSymbolPattern "a")).
Proof.
  assert (ordinary "a" = true) as H1 by reflexivity.
  assert (Forall (fun q => suffix_char q = true) (cstr "**?")) as H2
    by (repeat constructor).
  split; [by split|]. exact (parsePattern_suffixes "a" (cstr "**?") H1 H2).
Defined.

(** X20.  Words of ordinary symbols separated by bars parse into the
    alternation of the words' trees, nested from the left: concatenation
    binds tighter than the bar. *)
Theorem parsePattern_alternatives c w ws :
  Forall (fun c => ordinary c = true) (c :: w) →
  Forall (fun cw => Forall (fun c => ordinary c = true) (cw.1 :: cw.2)) ws →
  parsePattern (c :: w ++ bars ws) =
  Ok (fold_left extend_alternatives ws (word_tree c w)).
Proof.
  intros Hcw Hws. apply parsePattern_whole. intros rec. unfold parseAlternation.
  pose proof (Forall_ordinary_not_nul _ Hcw) as Hnn.
  pose proof (parseConcatenation_word rec [] c w (bars ws) (Forall_nil_2 _) Hcw
                (bars_stop ws)) as Hcat.
  cbn [app length] in Hcat. rewrite Hcat. cbn [mbind result_bind].
  assert (strlen (c :: w ++ bars ws) = length (c :: w) + length (bars ws)) as Hlen.
  { change (c :: w ++ bars ws) with ((c :: w) ++ bars ws).
    rewrite strlen_app by done. by rewrite (strlen_nul_free _ (bars_not_nul ws Hws)). }
  rewrite Hlen.
  change (1 + length w) with (length (c :: w)).
  change (c :: w ++ bars ws) with ((c :: w) ++ bars ws).
  apply alternation_loop_words; [done|done|].
  pose proof (bars_length ws). lia.
Qed.

Lemma parsePattern_alternatives_witness :
  (Forall (fun c => ordinary c = true) (cstr "ab") ∧
   Forall (fun cw => Forall (fun c => ordinary c = true) (cw.1 :: cw.2))
          [("c", cstr "d"); ("e", [])]) ∧
  parsePattern (cstr "ab|cd|e") =
  Ok (fold_left extend_alternatives [("c", cstr "d"); ("e", [])]
        (word_tree "a" (cstr "b"))).
Proof.
  assert (Forall (fun c => ordinary c = true) (cstr "ab")) as H1
    by (repeat constructor).
  assert (Forall (fun cw => Forall (fun c => ordinary c = true) (cw.1 :: cw.2))
                 [("c", cstr "d"); ("e", [])]) as H2
    by (repeat constructor).
  split; [by split|].
  exact (parsePattern_alternatives "a" (cstr "b") [("c", cstr "d"); ("e", [])] H1 H2).
Defined.

(** *** Classes and groups *)

Lemma repetition_loop_end str fuel p :
  Forall (fun c => c ≠ NUL) str → 0 < fuel →
  repetition_loop str fuel (length str) p = Ok (p, length str).
Proof.
  intros Hstr Hfuel.
  pose proof (repetition_loop_suffixes [] str [] fuel p Hstr (Forall_nil_2 _) eq_refl)
    as Hloop.
  rewrite app_nil_r in Hloop. simpl in Hloop. rewrite Nat.add_0_r in Hloop.
  by apply Hloop.
Qed.

(** The two scans copy the text up to the first closing character. *)
Lemma scanClass_members s :
  ∀ pre rest fuel subs,
    Forall (fun c => c ≠ NUL) pre →
    Forall (fun c => c ≠ NUL ∧ c ≠ "]") s →
    length s < fuel →
    scanClass (pre ++ s ++ "]" :: rest) fuel (length pre) subs =
    Ok (subs ++ s, length pre + length s).
Proof.
  induction s as [|c s IH]; intros pre rest fuel subs Hpre Hs Hfuel;
    (destruct fuel as [|fuel]; [simpl in Hfuel; lia|]).
  - simpl. rewrite read_app by done. simpl. by rewrite app_nil_r, Nat.add_0_r.
  - apply Forall_cons in Hs as [[Hnul Hc] Hs].
    cbn [scanClass app]. rewrite read_app by done. cbn [hd mbind result_bind].
    apply Ascii.eqb_neq in Hc. rewrite Hc.
    unfold is_nul. pose proof Hnul as Hnul'. apply Ascii.eqb_neq in Hnul'. rewrite Hnul'.
    assert (Forall (fun c => c ≠ NUL) (pre ++ [c])) as Hpre'.
    { apply Forall_app. split; [done|]. by apply Forall_singleton. }
    specialize (IH (pre ++ [c]) rest fuel (subs ++ [c]) Hpre' Hs).
    rewrite <- !app_assoc, length_app in IH. simpl in IH.
    replace (length pre + 1) with (S (length pre)) in IH by lia.
    rewrite IH by (simpl in Hfuel; lia).
    simpl. do 2 f_equal. lia.
Qed.

Lemma scanGroup_text s :
  ∀ pre rest fuel subs,
    Forall (fun c => c ≠ NUL) pre →
    Forall (fun c => c ≠ NUL ∧ c ≠ ")") s →
    length s < fuel →
    scanGroup (pre ++ s ++ ")" :: rest) fuel (length pre) subs =
    Ok (subs ++ s, length pre + length s).
Proof.
  induction s as [|c s IH]; intros pre rest fuel subs Hpre Hs Hfuel;
    (destruct fuel as [|fuel]; [simpl in Hfuel; lia|]).
  - simpl. rewrite read_app by done. simpl. by rewrite app_nil_r, Nat.add_0_r.
  - apply Forall_cons in Hs as [[Hnul Hc] Hs].
    cbn [scanGroup app]. rewrite read_app by done. cbn [hd mbind result_bind].
    apply Ascii.eqb_neq in Hc. rewrite Hc.
    assert (Forall (fun c => c ≠ NUL) (pre ++ [c])) as Hpre'.
    { apply Forall_app. split; [done|]. by apply Forall_singleton. }
    specialize (IH (pre ++ [c]) rest fuel (subs ++ [c]) Hpre' Hs).
    rewrite <- !app_assoc, length_app in IH. simpl in IH.
    replace (length pre + 1) with (S (length pre)) in IH by lia.
    rewrite IH by (simpl in Hfuel; lia).
    simpl. do 2 f_equal. lia.
Qed.

Lemma closed_text_not_nul (close : ascii) s :
  Forall (fun c => c ≠ NUL ∧ c ≠ close) s → Forall (fun c => c ≠ NUL) s.
Proof. intros Hs. eapply Forall_impl; [exact Hs|]. by intros c [? _]. Qed.

Lemma enclosed_not_nul (open close : ascii) s :
  open ≠ NUL → close ≠ NUL →
  Forall (fun c => c ≠ NUL ∧ c ≠ close) s →
  Forall (fun c => c ≠ NUL) (open :: s ++ [close]).
Proof.
  intros Ho Hc Hs. constructor; [done|].
  apply Forall_app. split; [by eapply closed_text_not_nul|by apply Forall_singleton].
Qed.

(** X18.  The text between brackets, whatever it holds apart from the close
    bracket, becomes the member list of a class node: no character is
    special inside a class. *)
Theorem parsePattern_class s :
  Forall (fun c => c ≠ NUL ∧ c ≠ "]") s →
  parsePattern ("[" :: s ++ ["]"]) = Ok (makeCharacterClassPattern s).
Proof.
  intros Hs. apply parsePattern_whole. intros rec.
  assert (Forall (fun c => c ≠ NUL) ("[" :: s ++ ["]"])) as Hnn
    by (by apply enclosed_not_nul).
  pose proof (strlen_nul_free _ Hnn) as Hlen.
  unfold parseAlternation, parseConcatenation, parseRepetition, parseAtomicPattern.
  rewrite read_first.
  cbn [hd mbind result_bind].
  change (ordinary "[") with false. cbv iota.
  change (negb (is_nul "[") && strchr (cstr ".^$([") "[") with true. cbv iota.
  change (Ascii.eqb "[" "(") with false. change (Ascii.eqb "[" "[") with true.
  cbv iota.
  pose proof (scanClass_members s ["["] [] (S (S (strlen ("[" :: s ++ ["]"])))) []
                ltac:(by apply Forall_singleton) Hs) as Hscan.
  cbn [app length] in Hscan.
  rewrite Hscan by (rewrite Hlen; simpl; rewrite length_app; lia).
  cbn [mbind result_bind].
  rewrite Hlen.
  replace (S (1 + length s)) with (length ("[" :: s ++ ["]"]))
    by (simpl; rewrite length_app; simpl; lia).
  rewrite repetition_loop_end by (done || lia). cbn [mbind result_bind].
  rewrite concatenation_loop_end by (done || lia). cbn [mbind result_bind].
  apply alternation_loop_end; [done|lia].
Qed.

Lemma parsePattern_class_witness :
  Forall (fun c => c ≠ NUL ∧ c ≠ "]") (cstr "a*(") ∧
  parsePattern (cstr "[a*(]") = Ok (makeCharacterClassPattern (cstr "a*(")).
Proof.
  assert (Forall (fun c => c ≠ NUL ∧ c ≠ "]") (cstr "a*(")) as H
    by (repeat constructor; discriminate).
  split; [exact H|]. exact (parsePattern_class (cstr "a*(") H).
Defined.

(** *** The depth bound does not matter *)

Section Ext.

Variables rec1 rec2 : list ascii -> result Pattern.
Variable str : list ascii.

Hypothesis agree : ∀ subs, strlen subs < strlen str → rec1 subs = rec2 subs.

Lemma parseAtomicPattern_ext pos :
  parseAtomicPattern rec1 str pos = parseAtomicPattern rec2 str pos.
Proof.
  unfold parseAtomicPattern.
  remember (S (S (strlen str))) as fuel eqn:Hfuel.
  destruct (read str pos) as [c|e] eqn:Hread; simpl; [|done].
  apply read_ok_inv in Hread as [Hpos _].
  destruct (ordinary c); [done|].
  destruct (negb (is_nul c) && strchr _ c); [|done].
  destruct (Ascii.eqb c "("); [|done].
  pose proof (scanGroup_within str fuel (S pos) []) as Hscan.
  destruct (scanGroup str fuel (S pos) []) as [[subs close]|e]; simpl in *; [|done].
  destruct Hscan as [Hclose Hlen]; [lia|lia|].
  pose proof (strlen_le_length subs).
  rewrite agree by lia. done.
Qed.

Lemma parseRepetition_ext pos :
  parseRepetition rec1 str pos = parseRepetition rec2 str pos.
Proof. unfold parseRepetition. by rewrite parseAtomicPattern_ext. Qed.

Lemma concatenation_loop_ext fuel :
  ∀ pos p1,
    concatenation_loop rec1 str fuel pos p1 = concatenation_loop rec2 str fuel pos p1.
Proof.
  induction fuel as [|fuel IH]; intros pos p1; [done|].
  simpl. destruct (read str pos) as [c|e]; simpl; [|done].
  destruct (negb (is_nul c) && negb (Ascii.eqb c "|") && negb (Ascii.eqb c ")"));
    [|done].
  rewrite parseRepetition_ext.
  destruct (parseRepetition rec2 str pos) as [[p2 pos']|e]; simpl; [|done].
  apply IH.
Qed.

Lemma parseConcatenation_ext pos :
  parseConcatenation rec1 str pos = parseConcatenation rec2 str pos.
Proof.
  unfold parseConcatenation. rewrite parseRepetition_ext.
  destruct (parseRepetition rec2 str pos) as [[p pos']|e];
    cbn [mbind result_bind]; [|done].
  apply concatenation_loop_ext.
Qed.

Lemma alternation_loop_ext fuel :
  ∀ pos p1,
    alternation_loop rec1 str fuel pos p1 = alternation_loop rec2 str fuel pos p1.
Proof.
  induction fuel as [|fuel IH]; intros pos p1; [done|].
  simpl. destruct (read str pos) as [c|e]; simpl; [|done].
  destruct (negb (is_nul c) && Ascii.eqb c "|"); [|done].
  rewrite parseConcatenation_ext.
  destruct (parseConcatenation rec2 str (S pos)) as [[p2 pos']|e]; simpl; [|done].
  apply IH.
Qed.

Lemma parseAlternation_ext pos :
  parseAlternation rec1 str pos = parseAlternation rec2 str pos.
Proof.
  unfold parseAlternation. rewrite parseConcatenation_ext.
  destruct (parseConcatenation rec2 str pos) as [[p pos']|e];
    cbn [mbind result_bind]; [|done].
  apply alternation_loop_ext.
Qed.

End Ext.

Lemma parsePattern_depth_S depth str :
  parsePattern_depth (S depth) str =
  ('(pat, pos) ← parseAlternation (parsePattern_depth depth) str 0;
   c ← read str pos;
   if negb (is_nul c) then Err InvalidPattern else Ok pat).
Proof. reflexivity. Qed.

Lemma parsePattern_depth_more depth :
  ∀ str, strlen str < depth →
         parsePattern_depth (S depth) str = parsePattern_depth depth str.
Proof.
  induction depth as [|depth IH]; intros str Hdepth; [lia|].
  rewrite (parsePattern_depth_S (S depth)), (parsePattern_depth_S depth).
  rewrite (parseAlternation_ext (parsePattern_depth (S depth)) (parsePattern_depth depth));
    [done|].
  intros subs Hsubs. apply IH. lia.
Qed.

(** Any depth bound above the length of the pattern gives the result of
    [parsePattern]. *)
Lemma parsePattern_depth_enough depth str :
  strlen str < depth → parsePattern_depth depth str = parsePattern str.
Proof.
  unfold parsePattern. intros Hdepth.
  induction depth as [|depth IH]; [lia|].
  destruct (decide (depth = strlen str)) as [->|Hne]; [done|].
  rewrite parsePattern_depth_more by lia. apply IH. lia.
Qed.

(** X19.  Parentheses around a text without a close parenthesis change
    nothing: the group parses to what the text alone parses to, be it a
    tree or an error. *)
Theorem parsePattern_group s :
  Forall (fun c => c ≠ NUL ∧ c ≠ ")") s →
  parsePattern ("(" :: s ++ [")"]) = parsePattern s.
Proof.
  intros Hs.
  assert (Forall (fun c => c ≠ NUL) ("(" :: s ++ [")"])) as Hnn
    by (by apply enclosed_not_nul).
  pose proof (strlen_nul_free _ Hnn) as Hlen.
  pose proof (strlen_nul_free _ (closed_text_not_nul _ _ Hs)) as Hlen'.
  unfold parsePattern at 1. rewrite parsePattern_depth_S.
  unfold parseAlternation, parseConcatenation, parseRepetition, parseAtomicPattern.
  rewrite read_first.
  cbn [hd mbind result_bind].
  change (ordinary "(") with false. cbv iota.
  change (negb (is_nul "(") && strchr (cstr ".^$([") "(") with true. cbv iota.
  change (Ascii.eqb "(" "(") with true. cbv iota.
  pose proof (scanGroup_text s ["("] [] (S (S (strlen ("(" :: s ++ [")"])))) []
                ltac:(by apply Forall_singleton) Hs) as Hscan.
  cbn [app length] in Hscan.
  rewrite Hscan by (rewrite Hlen; simpl; rewrite length_app; lia).
  cbn [mbind result_bind].
  rewrite parsePattern_depth_enough
    by (rewrite Hlen, Hlen'; simpl; rewrite length_app; simpl; lia).
  destruct (parsePattern s) as [p|e]; cbn [mbind result_bind]; [|done].
  rewrite Hlen.
  replace (S (1 + length s)) with (length ("(" :: s ++ [")"]))
    by (simpl; rewrite length_app; simpl; lia).
  rewrite repetition_loop_end by (done || lia). cbn [mbind result_bind].
  rewrite concatenation_loop_end by (done || lia). cbn [mbind result_bind].
  rewrite alternation_loop_end by (done || lia). cbn [mbind result_bind].
  pose proof (read_end ("(" :: s ++ [")"])) as Hend. rewrite Hlen in Hend.
  rewrite Hend. done.
Qed.

Lemma parsePattern_group_witness :
  Forall (fun c => c ≠ NUL ∧ c ≠ ")") (cstr "ab|c*") ∧
  parsePattern (cstr "(ab|c*)") = parsePattern (cstr "ab|c*").
Proof.
  assert (Forall (fun c => c ≠ NUL ∧ c ≠ ")") (cstr "ab|c*")) as H
    by (repeat constructor; discriminate).
  split; [exact H|]. exact (parsePattern_group (cstr "ab|c*") H).
Defined.

(** *** Patterns without groups stay inside the string *)

Lemma read_total str pos : pos ≤ strlen str → ∃ c, read str pos = Ok c.
Proof.
  intros Hpos. destruct (decide (pos < strlen str)).
  - rewrite read_in by done. eauto.
  - assert (pos = strlen str) as -> by lia. rewrite read_end. eauto.
Qed.

Lemma read_ok_nth str pos c :
  read str pos = Ok c → c ≠ NUL → pos < strlen str ∧ nth pos str NUL = c.
Proof.
  intros Hread Hc. pose proof (read_ok_inv _ _ _ Hread) as [_ Hlt].
  specialize (Hlt Hc). split; [done|].
  rewrite read_in in Hread by done. by injection Hread.
Qed.

Lemma scanClass_in_string str fuel :
  ∀ pos subs,
    pos ≤ strlen str → scanClass str fuel pos subs ≠ Err PastTerminator.
Proof.
  induction fuel as [|fuel IH]; intros pos subs Hpos; [discriminate|].
  simpl. destruct (read_total str pos Hpos) as [c Hread]. rewrite Hread. simpl.
  destruct (Ascii.eqb c "]"); [discriminate|].
  destruct (is_nul c) eqn:Hnul; [discriminate|].
  apply IH.
  assert (c ≠ NUL) as Hc by (intros ->; vm_compute in Hnul; discriminate).
  apply (read_ok_nth _ _ _ Hread) in Hc. lia.
Qed.

Section NoGroup.

Variable rec : list ascii -> result Pattern.
Variable str : list ascii.

Hypothesis rec_fuel :
  ∀ subs, strlen subs < strlen str → rec subs ≠ Err OutOfFuel.

Hypothesis no_paren : ∀ q, q < strlen str → nth q str NUL ≠ "(".

Lemma parseAtomicPattern_in_string pos :
  pos ≤ strlen str → parseAtomicPattern rec str pos ≠ Err PastTerminator.
Proof.
  intros Hpos. unfold parseAtomicPattern.
  remember (S (S (strlen str))) as fuel eqn:Hfuel.
  destruct (read_total str pos Hpos) as [c Hread]. rewrite Hread. simpl.
  destruct (ordinary c); [discriminate|].
  destruct (is_nul c) eqn:Hnul; simpl; [discriminate|].
  assert (c ≠ NUL) as Hc by (intros ->; vm_compute in Hnul; discriminate).
  apply (read_ok_nth _ _ _ Hread) in Hc as [Hlt Hnth].
  destruct (strchr _ c); [|discriminate].
  destruct (Ascii.eqb_spec c "(") as [->|_].
  { by destruct (no_paren pos Hlt). }
  destruct (Ascii.eqb c "["); [|discriminate].
  pose proof (scanClass_in_string str fuel (S pos) []) as Hscan.
  destruct (scanClass str fuel (S pos) []) as [[subs close]|e]; simpl; [discriminate|].
  intros [= ->]. apply Hscan; [lia|done].
Qed.

Lemma repetition_loop_in_string fuel :
  ∀ pos p,
    pos ≤ strlen str → repetition_loop str fuel pos p ≠ Err PastTerminator.
Proof.
  induction fuel as [|fuel IH]; intros pos p Hpos; [discriminate|].
  simpl. destruct (read_total str pos Hpos) as [c Hread]. rewrite Hread. simpl.
  destruct (is_nul c) eqn:Hnul; simpl; [discriminate|].
  assert (c ≠ NUL) as Hc by (intros ->; vm_compute in Hnul; discriminate).
  apply (read_ok_nth _ _ _ Hread) in Hc as [Hlt _].
  destruct (Ascii.eqb c "*" || Ascii.eqb c "+" || Ascii.eqb c "?"); [|discriminate].
  destruct (Ascii.eqb c "*"); [apply IH; lia|].
  destruct (Ascii.eqb c "+"); [apply IH; lia|].
  destruct (Ascii.eqb c "?"); apply IH; lia.
Qed.

Lemma parseRepetition_in_string pos :
  pos ≤ strlen str → parseRepetition rec str pos ≠ Err PastTerminator.
Proof.
  intros Hpos. unfold parseRepetition.
  remember (S (strlen str)) as fuel eqn:Hfuel.
  pose proof (parseAtomicPattern_in_string pos Hpos) as Hsafe.
  pose proof (parseAtomicPattern_within rec str rec_fuel pos Hpos) as Hatom.
  destruct (parseAtomicPattern rec str pos) as [[p pos']|e]; simpl in *; [|congruence].
  apply repetition_loop_in_string. lia.
Qed.

Lemma concatenation_loop_in_string fuel :
  ∀ pos p1,
    pos ≤ strlen str →
    concatenation_loop rec str fuel pos p1 ≠ Err PastTerminator.
Proof.
  induction fuel as [|fuel IH]; intros pos p1 Hpos; [discriminate|].
  simpl. destruct (read_total str pos Hpos) as [c Hread]. rewrite Hread. simpl.
  destruct (negb (is_nul c) && negb (Ascii.eqb c "|") && negb (Ascii.eqb c ")"));
    [|discriminate].
  pose proof (parseRepetition_in_string pos Hpos) as Hsafe.
  pose proof (parseRepetition_within rec str rec_fuel pos Hpos) as Hrep.
  destruct (parseRepetition rec str pos) as [[p2 pos']|e]; simpl in *; [|congruence].
  apply IH. lia.
Qed.

Lemma parseConcatenation_in_string pos :
  pos ≤ strlen str → parseConcatenation rec str pos ≠ Err PastTerminator.
Proof.
  intros Hpos. unfold parseConcatenation.
  remember (S (strlen str)) as fuel eqn:Hfuel.
  pose proof (parseRepetition_in_string pos Hpos) as Hsafe.
  pose proof (parseRepetition_within rec str rec_fuel pos Hpos) as Hrep.
  destruct (parseRepetition rec str pos) as [[p pos']|e]; simpl in *; [|congruence].
  apply concatenation_loop_in_string. lia.
Qed.

Lemma alternation_loop_in_string fuel :
  ∀ pos p1,
    pos ≤ strlen str →
    alternation_loop rec str fuel pos p1 ≠ Err PastTerminator.
Proof.
  induction fuel as [|fuel IH]; intros pos p1 Hpos; [discriminate|].
  simpl. destruct (read_total str pos Hpos) as [c Hread]. rewrite Hread. simpl.
  destruct (is_nul c) eqn:Hnul; simpl; [discriminate|].
  assert (c ≠ NUL) as Hc by (intros ->; vm_compute in Hnul; discriminate).
  apply (read_ok_nth _ _ _ Hread) in Hc as [Hlt _].
  destruct (Ascii.eqb c "|"); [|discriminate].
  pose proof (parseConcatenation_in_string (S pos)) as Hsafe.
  pose proof (parseConcatenation_within rec str rec_fuel (S pos)) as Hcat.
  destruct (parseConcatenation rec str (S pos)) as [[p2 pos']|e]; simpl in *.
  - apply IH. lia.
  - intros [= ->]. by apply Hsafe.
Qed.

Lemma parseAlternation_in_string pos :
  pos ≤ strlen str → parseAlternation rec str pos ≠ Err PastTerminator.
Proof.
  intros Hpos. unfold parseAlternation.
  remember (S (strlen str)) as fuel eqn:Hfuel.
  pose proof (parseConcatenation_in_string pos Hpos) as Hsafe.
  pose proof (parseConcatenation_within rec str rec_fuel pos Hpos) as Hcat.
  destruct (parseConcatenation rec str pos) as [[p pos']|e]; simpl in *; [|congruence].
  apply alternation_loop_in_string. lia.
Qed.

End NoGroup.

(** X21.  A pattern without an open parenthesis never makes the parser
    read behind the terminator: the parse ends with a tree or with
    [InvalidPattern]. *)
Theorem parsePattern_without_group str :
  (∀ q, q < strlen str → nth q str NUL ≠ "(") →
  parsePattern str = Err InvalidPattern ∨ ∃ pat, parsePattern str = Ok pat.
Proof.
  intros Hno.
  pose proof (parsePattern_depth_fuel (S (strlen str)) str) as Hfuel.
  unfold parsePattern in *. rewrite parsePattern_depth_S in *.
  assert (∀ subs, strlen subs < strlen str →
                  parsePattern_depth (strlen str) subs ≠ Err OutOfFuel) as Hrec.
  { intros subs Hsubs. by apply parsePattern_depth_fuel. }
  pose proof (parseAlternation_in_string _ str Hrec Hno 0) as Hsafe.
  pose proof (parseAlternation_within _ str Hrec 0) as Hin.
  destruct (parseAlternation (parsePattern_depth (strlen str)) str 0)
    as [[pat pos]|e]; simpl in *.
  - destruct (read_total str pos) as [c Hread]; [lia|]. rewrite Hread. simpl.
    destruct (negb (is_nul c)); eauto.
  - destruct e; [by left|by destruct Hsafe; [lia|]|by destruct Hfuel; [lia|]].
Qed.

Lemma parsePattern_without_group_witness :
  (∀ q, q < strlen (cstr "a*|[b]") → nth q (cstr "a*|[b]") NUL ≠ "(") ∧
  (parsePattern (cstr "a*|[b]") = Err InvalidPattern ∨
   ∃ pat, parsePattern (cstr "a*|[b]") = Ok pat).
Proof.
  assert (∀ q, q < strlen (cstr "a*|[b]") → nth q (cstr "a*|[b]") NUL ≠ "(") as H.
  { intros q Hq. do 6 (destruct q as [|q]; [discriminate|]).
    vm_compute in Hq. lia. }
  split; [exact H|]. exact (parsePattern_without_group (cstr "a*|[b]") H).
Defined.

(** C5.  For the nested group [((a)b)] the text taken for the outer group
    ends at the first close parenthesis: it is [(a], not [(a)b].  Parsing
    that text opens a group that is never closed, and the scan for its
    close parenthesis leaves the string; no tree is returned. *)
Theorem nested_group_flat_scan :
  let str := cstr "((a)b)" in
  scanGroup str (S (S (strlen str))) 1 [] = Ok (cstr "(a", 3) ∧
  parsePattern (cstr "(a") = Err PastTerminator ∧
  parsePattern str = Err PastTerminator.
Proof. repeat split; reflexivity. Qed.

(** C6.  For the pattern [a(], whose group is never closed, the parser does
    not stop with [InvalidPattern]: the scan for the close parenthesis
    reads on behind the terminator.  An unclosed class, [a[], does stop
    with [InvalidPattern]. *)
Theorem unmatched_paren_not_invalid :
  parsePattern (cstr "a(") = Err PastTerminator ∧
  parsePattern (cstr "a[") = Err InvalidPattern.
Proof. split; reflexivity. Qed.

(** ** Words of ordinary symbols *)

Lemma makeSymbolPattern_ordinary c :
  ordinary c = true → makeSymbolPattern c = SymbolPattern 0 None LSymbol c.
Proof.
  intros Hord. unfold makeSymbolPattern.
  destruct (Ascii.eqb_spec c "^") as [->|_]; [vm_compute in Hord; discriminate|].
  destruct (Ascii.eqb_spec c ".") as [->|_]; [vm_compute in Hord; discriminate|].
  destruct (Ascii.eqb_spec c "$") as [->|_]; [vm_compute in Hord; discriminate|done].
Qed.

Lemma occurs_at_snoc u c str b :
  occurs_at (u ++ [c]) str b ↔
  occurs_at u str b ∧ b + length u < strlen str ∧ nth (b + length u) str NUL = c.
Proof.
  unfold occurs_at. rewrite length_app. simpl. split.
  - intros [Hlen Hnth]. split; [split; [lia|]|split; [lia|]].
    + intros i Hi. rewrite Hnth by lia. rewrite app_nth1 by lia. done.
    + rewrite Hnth by lia. rewrite app_nth2 by lia. by rewrite Nat.sub_diag.
  - intros ([Hlen Hnth] & Hlt & Hc). split; [lia|].
    intros i Hi. destruct (decide (i < length u)) as [Hlt'|Hge].
    + rewrite app_nth1 by lia. by apply Hnth.
    + assert (i = length u) as -> by lia.
      rewrite app_nth2 by lia. by rewrite Nat.sub_diag.
Qed.

Lemma word_fold_matches str w :
  ∀ u P,
    Forall (fun c => ordinary c = true) w →
    (∀ b e, matches (locate P str) b e = true ↔
            e = b + length u ∧ occurs_at u str b) →
    ∀ b e, matches (locate (fold_left extend_word w P) str) b e = true ↔
           e = b + length (u ++ w) ∧ occurs_at (u ++ w) str b.
Proof.
  induction w as [|c w IH]; intros u P Hw HP b e.
  - simpl. rewrite app_nil_r. apply HP.
  - apply Forall_cons in Hw as [Hc Hw]. simpl.
    replace (u ++ c :: w) with ((u ++ [c]) ++ w) by (by rewrite <- app_assoc).
    apply IH; [done|]. clear b e. intros b e.
    unfold extend_word, makeConcatenationPattern.
    rewrite (makeSymbolPattern_ordinary c Hc).
    rewrite concatenation_matches, occurs_at_snoc, length_app. cbn [length]. split.
    + intros (Hbe & k & Hk & HPk & Hsym).
      apply HP in HPk as [-> Hocc].
      apply symbol_matches in Hsym as (Hlt & -> & Hnth).
      split; [lia|done].
    + intros (-> & Hocc & Hlt & Hnth). split; [lia|].
      exists (b + length u). split; [lia|].
      split; [by apply HP|]. apply symbol_matches. split; [done|]. split; [lia|done].
Qed.

(** X24.  The tree of a word of ordinary symbols marks, after [locate],
    exactly the intervals of the line at which the word stands. *)
Theorem word_pattern_occurrences c w str b e :
  Forall (fun c => ordinary c = true) (c :: w) →
  matches (locate (word_tree c w) str) b e = true ↔
  e = b + length (c :: w) ∧ occurs_at (c :: w) str b.
Proof.
  intros Hcw. apply Forall_cons in Hcw as [Hc Hw].
  apply (word_fold_matches str w [c] (makeSymbolPattern c) Hw).
  clear b e. intros b e.
  rewrite (makeSymbolPattern_ordinary c Hc), symbol_matches.
  unfold occurs_at. simpl. split.
  - intros (Hlt & -> & Hnth). split; [lia|]. split; [lia|].
    intros i Hi. assert (i = 0) as -> by lia. by rewrite Nat.add_0_r.
  - intros (-> & Hlen & Hnth). split; [lia|]. split; [lia|].
    specialize (Hnth 0). rewrite Nat.add_0_r in Hnth. apply Hnth. lia.
Qed.

Lemma word_pattern_occurrences_witness :
  Forall (fun c => ordinary c = true) (cstr "ab") ∧
  (matches (locate (word_tree "a" (cstr "b")) (cstr "xaby")) 1 3 = true ↔
   3 = 1 + length (cstr "ab") ∧ occurs_at (cstr "ab") (cstr "xaby") 1).
Proof.
  assert (Forall (fun c => ordinary c = true) (cstr "ab")) as H
    by (repeat constructor).
  split; [exact H|].
  exact (word_pattern_occurrences "a" (cstr "b") (cstr "xaby") 1 3 H).
Defined.

(** ** Reporting *)

Lemma for_upto_ind {St : Type} (P : nat -> St -> Prop) (body : nat -> St -> St) lo hi s :
  lo ≤ S hi →
  P lo s →
  (∀ j s', lo ≤ j ≤ hi → P j s' → P (S j) (body j s')) →
  P (S hi) (for_upto lo hi body s).
Proof.
  intros Hle Hs Hstep. unfold for_upto.
  pose proof (for_count_ind P body (S hi - lo) lo s Hs) as H.
  replace (lo + (S hi - lo)) with (S hi) in H by lia.
  apply H. intros j s' Hj. apply Hstep. lia.
Qed.

Lemma any_match_spec pat len :
  any_match pat len = true ↔ ∃ b e, b ≤ e ≤ len ∧ matches pat b e = true.
Proof.
  unfold any_match.
  pose (P := fun (i : nat) (any : bool) =>
    any = true ↔ ∃ b e, b < i ∧ b ≤ e ≤ len ∧ matches pat b e = true).
  assert (P (S len) (for_upto 0 len (fun begin any =>
            for_upto begin len (fun end_ any =>
              if matches pat begin end_ then true else any) any) false)) as HP.
  { apply for_upto_ind; [lia| |].
    - split; [done|]. intros (b & e & Hb & _). lia.
    - intros j any Hj Hany.
      pose (Q := fun (k : nat) (any' : bool) =>
        any' = true ↔ any = true ∨ ∃ e, j ≤ e < k ∧ matches pat j e = true).
      assert (Q (S len) (for_upto j len (fun end_ any =>
                if matches pat j end_ then true else any) any)) as HQ.
      { apply for_upto_ind; [lia| |].
        - split; [by left|]. intros [?|(e & He & _)]; [done|lia].
        - intros k any' Hk Hany'. unfold Q in *.
          destruct (matches pat j k) eqn:Hm.
          + split; [|done]. intros _. right. exists k. split; [lia|done].
          + rewrite Hany'. split.
            * intros [?|(e & He & Hme)]; [by left|]. right. exists e. split; [lia|done].
            * intros [?|(e & He & Hme)]; [by left|]. right.
              destruct (decide (e = k)) as [->|]; [congruence|].
              exists e. split; [lia|done]. }
      unfold P, Q in *. rewrite HQ, Hany. split.
      + intros [(b & e & Hb & Hbe & Hm)|(e & He & Hm)].
        * exists b, e. split; [lia|done].
        * exists j, e. split; [lia|]. split; [lia|done].
      + intros (b & e & Hb & Hbe & Hm).
        destruct (decide (b = j)) as [->|].
        * right. exists e. split; [lia|done].
        * left. exists b, e. split; [lia|done]. }
  unfold P in HP. rewrite HP. split.
  - intros (b & e & _ & Hbe & Hm). eauto.
  - intros (b & e & Hbe & Hm). exists b, e. split; [lia|done].
Qed.



(** The inner loop passes over intervals that are not matched. *)
Lemma report_inner_skip pat str turns :
  ∀ b e mflag out,
    (0 ≤ b)%Z → (0 ≤ e)%Z →
    (∀ k, k < turns → matches pat (Z.to_nat b) (Z.to_nat e + k) = false) →
    report_inner pat str turns b e mflag out = Done (b, mflag, out).
Proof.
  induction turns as [|turns IH]; intros b e mflag out Hb He Hnone; [done|].
  simpl. destruct (b <? 0)%Z eqn:Hneg; [lia|].
  pose proof (Hnone 0) as H0. rewrite Nat.add_0_r in H0. rewrite H0 by lia.
  apply IH; [done|lia|].
  intros k Hk. replace (Z.to_nat (e + 1) + k) with (Z.to_nat e + S k) by lia.
  apply Hnone. lia.
Qed.

(** X27.  On a non-empty line of which the pattern matches the empty
    interval at position 0, [reportMatches] sets [begin] to [-1] and then
    reads [pat->table[ -1 ]], outside the table. *)
Theorem reportMatches_empty_match_at_start fuel pat str :
  0 < strlen str →
  matches pat 0 0 = true →
  reportMatches (S fuel) pat str = BadIndex.
Proof.
  intros Hlen Hm. unfold reportMatches.
  assert (any_match pat (strlen str) = true) as ->.
  { apply any_match_spec. exists 0, 0. split; [lia|done]. }
  simpl.
  destruct (0 <=? Z.of_nat (strlen str))%Z eqn:Hle; [|lia].
  replace (Z.to_nat (Z.of_nat (strlen str) + 1 - 0)) with (S (S (strlen str - 1)))
    by lia.
  simpl. change (Z.to_nat 0) with 0. by rewrite Hm.
Qed.

Lemma reportMatches_empty_match_at_start_witness :
  (0 < strlen (cstr "b") ∧
   matches (locate (makeAsteriskPattern (makeSymbolPattern "a")) (cstr "b")) 0 0 = true) ∧
  reportMatches 1 (locate (makeAsteriskPattern (makeSymbolPattern "a")) (cstr "b"))
    (cstr "b") = BadIndex.
Proof.
  assert (0 < strlen (cstr "b")) as H1 by (vm_compute; lia).
  assert (matches (locate (makeAsteriskPattern (makeSymbolPattern "a")) (cstr "b")) 0 0
          = true) as H2 by reflexivity.
  split; [by split|].
  exact (reportMatches_empty_match_at_start 0
           (locate (makeAsteriskPattern (makeSymbolPattern "a")) (cstr "b"))
           (cstr "b") H1 H2).
Defined.










(** A pattern that matches the empty interval at the end of the line and
    nothing else keeps the outer loop at [begin = len]. *)
Lemma report_outer_stuck pat str fuel :
  0 < strlen str →
  (∀ b e, matches pat b e = true ↔ b = strlen str ∧ e = strlen str) →
  ∀ out, report_outer pat str fuel (Z.of_nat (strlen str)) out = Starved.
Proof.
  intros Hlen Honly. induction fuel as [|fuel IH]; intros out; [done|].
  cbn [report_outer].
  destruct (Z.of_nat (strlen str) <=? Z.of_nat (strlen str))%Z eqn:Hle; [|lia].
  replace (Z.to_nat (Z.of_nat (strlen str) + 1 - Z.of_nat (strlen str))) with 1 by lia.
  cbn [report_inner].
  destruct (Z.of_nat (strlen str) <? 0)%Z eqn:Hneg; [lia|].
  rewrite Nat2Z.id.
  assert (matches pat (strlen str) (strlen str) = true) as -> by (by apply Honly).
  cbn [negb andb].
  replace (Z.of_nat (strlen str) - 1 + 1)%Z with (Z.of_nat (strlen str)) by lia.
  apply IH.
Qed.

Lemma report_outer_to_stuck pat str n :
  0 < strlen str →
  (∀ b e, matches pat b e = true ↔ b = strlen str ∧ e = strlen str) →
  ∀ b fuel out,
    b + n = strlen str → report_outer pat str fuel (Z.of_nat b) out = Starved.
Proof.
  intros Hlen Honly. induction n as [|n IH]; intros b fuel out Hb.
  - rewrite Nat.add_0_r in Hb. subst b. by apply report_outer_stuck.
  - destruct fuel as [|fuel]; [done|]. cbn [report_outer].
    destruct (Z.of_nat b <=? Z.of_nat (strlen str))%Z eqn:Hle; [|lia].
    rewrite report_inner_skip; [|lia|lia|].
    + cbn [negb andb].
      destruct (Z.of_nat b =? Z.of_nat (strlen str))%Z eqn:Heq; [lia|].
      cbn [negb]. replace (Z.of_nat b + 1)%Z with (Z.of_nat (S b)) by lia.
      apply IH. lia.
    + intros k Hk. apply not_true_is_false. intros Hm.
      apply Honly in Hm. lia.
Qed.

(** X29.  On a non-empty line, for a pattern whose only match is the empty
    interval at the end of the line, as the end anchor's is,
    [reportMatches] does not end: each turn of the outer loop moves
    [begin] back to [len - 1], and no number of turns leaves the loop. *)
Theorem reportMatches_only_end_match fuel pat str :
  0 < strlen str →
  (∀ b e, matches pat b e = true ↔ b = strlen str ∧ e = strlen str) →
  reportMatches fuel pat str = Starved.
Proof.
  intros Hlen Honly. unfold reportMatches.
  assert (any_match pat (strlen str) = true) as ->.
  { apply any_match_spec. exists (strlen str), (strlen str).
    split; [lia|]. by apply Honly. }
  change 0%Z with (Z.of_nat 0).
  by rewrite (report_outer_to_stuck pat str (strlen str) Hlen Honly 0 fuel []).
Qed.

Lemma reportMatches_only_end_match_witness :
  (0 < strlen (cstr "ab") ∧
   ∀ b e, matches (locate (makeSymbolPattern "$") (cstr "ab")) b e = true ↔
          b = strlen (cstr "ab") ∧ e = strlen (cstr "ab")) ∧
  reportMatches 1000 (locate (makeSymbolPattern "$") (cstr "ab")) (cstr "ab") = Starved.
Proof.
  assert (0 < strlen (cstr "ab")) as H1 by (vm_compute; lia).
  assert (∀ b e, matches (locate (makeSymbolPattern "$") (cstr "ab")) b e = true ↔
                 b = strlen (cstr "ab") ∧ e = strlen (cstr "ab")) as H2.
  { intros b e.
    change (matches (locate (makeSymbolPattern "$") (cstr "ab")) b e)
      with (table_get (locateSymbolPatternAnchor "$" None (cstr "ab")).2 b e).
    rewrite (marks_fresh _ _ _ _ _ (locateSymbolPatternAnchor_marks _ _ _)).
    split; [by intros (_ & _ & ? & ?)|]. intros [-> ->]. by split. }
  split; [exact (conj H1 H2)|].
  exact (reportMatches_only_end_match 1000 (locate (makeSymbolPattern "$") (cstr "ab"))
           (cstr "ab") H1 H2).
Defined.

(** ** The parser and the engine together *)

(** The intervals a pattern, given as text, matches in a line. *)
Example star_then_symbol :
  (p ← parsePattern (cstr "a*b"); Ok (matches (locate p (cstr "aaab")) 0 4)) = Ok true.
Proof. reflexivity. Qed.

Example group_plus_then_symbol :
  (p ← parsePattern (cstr "(ab)+c");
   Ok (matches (locate p (cstr "ababc")) 0 5, match_list (locate p (cstr "c")) 1))
  = Ok (true, []).
Proof. reflexivity. Qed.

Example class_of_three :
  (p ← parsePattern (cstr "[abc]");
   Ok (match_list (locate p (cstr "b")) 1, match_list (locate p (cstr "d")) 1))
  = Ok ([(0, 1)], []).
Proof. reflexivity. Qed.

Example alteration_single_symbols :
  (p ← parsePattern (cstr "a|b");
   Ok (match_list (locate p (cstr "a")) 1, match_list (locate p (cstr "b")) 1,
       match_list (locate p (cstr "c")) 1))
  = Ok ([(0, 1)], [(0, 1)], []).
Proof. reflexivity. Qed.
